(** * iota.commands.extended.utils

    A shallow embedding of the two coroutines of
    [src/iota/commands/extended/utils.py]:

    - [iter_used_addresses], the asynchronous generator that scans the
      Tangle for used addresses, and
    - [get_bundles_from_transaction_hashes], which resolves a collection of
      transaction hashes to bundles sorted by tail-transaction timestamp.

    Every [await command(...)] is a call to the node through the adapter.
    The node is modelled as a state machine over an arbitrary world [W]:
    a command takes its request and the current world, and returns either a
    failure or a response, together with the next world.  The embedding
    threads the world and records every call with its response, so that
    the order and the number of calls can be stated. *)

From Stdlib Require Import ZArith Lia.
From stdpp Require Import gmap strings list sorting pretty.

Local Open Scope Z_scope.

(** ** Data model *)

(** [Address] is a tryte string that carries the index and the security
    level it was generated with. *)
Record Address := mkAddress {
  address : string;
  key_index : Z;
  security_level : Z
}.

(** A transaction, with the attributes the two coroutines read or write.
    [is_confirmed] is [None] until it is populated. *)
Record Transaction := mkTransaction {
  hash : string;
  bundle_hash : string;
  is_tail : bool;
  timestamp : Z;
  is_confirmed : option bool
}.

(** A bundle: its transactions, its tail transaction and the confirmation
    flag of the bundle. *)
Record Bundle := mkBundle {
  transactions : list Transaction;
  tail_transaction : Transaction;
  bundle_is_confirmed : option bool
}.

(** [txn.is_confirmed = v] *)
Definition set_is_confirmed (v : option bool) (txn : Transaction) : Transaction :=
  {| hash := hash txn; bundle_hash := bundle_hash txn; is_tail := is_tail txn;
     timestamp := timestamp txn; is_confirmed := v |}.

(** [bundle.is_confirmed = v] *)
Definition set_bundle_is_confirmed (v : option bool) (bundle : Bundle) : Bundle :=
  {| transactions := transactions bundle;
     tail_transaction := tail_transaction bundle;
     bundle_is_confirmed := v |}.

(** ** Calls to the node *)

Inductive request :=
| FindTransactions (addresses : list Address)
| WereAddressesSpentFrom (addresses : list Address)
| GetTrytes (hashes : list string)
| FindTransactionObjects (bundles : list string)
| GetLatestInclusion (hashes : list string)
| GetBundles (tail_hashes : list string).

Inductive response :=
| Hashes (hashes : list string)
| SpentStates (states : list bool)
| Trytes (trytes : list string)
| TransactionObjects (txns : list Transaction)
| InclusionStates (states : gmap string bool)
| Bundles (bundles : list Bundle).

Section Utils.

(** [E] is the type of the failures a command can raise, [W] the state of
    the node and of the connection to it. *)
Context {E W : Type}.

(** What the coroutines can raise: a failure of a command, unchanged;
    [IndexError] from [states[0]]; [ValueError] from the address
    generator. *)
Inductive exn :=
| AdapterError (e : E)
| IndexError
| ValueError.

(** One call: the request and what the node answered. *)
Record event := mkEvent {
  ev_request : request;
  ev_answer : E + response
}.

(** The six commands, each bound to the adapter. *)
Record Adapter := mkAdapter {
  FindTransactionsCommand : list Address -> W -> (E + list string) * W;
  WereAddressesSpentFromCommand : list Address -> W -> (E + list bool) * W;
  GetTrytesCommand : list string -> W -> (E + list string) * W;
  FindTransactionObjectsCommand : list string -> W -> (E + list Transaction) * W;
  GetLatestInclusionCommand : list string -> W -> (E + gmap string bool) * W;
  GetBundlesCommand : list string -> W -> (E + list Bundle) * W
}.

(** *** The monad of a coroutine

    A computation runs from a world, and gives either an exception or a
    value, the world it leaves, and the calls it made, in order. *)
Record result (A : Type) := mkResult {
  value : exn + A;
  world : W;
  calls : list event
}.
Arguments mkResult {A}.
Arguments value {A}.
Arguments world {A}.
Arguments calls {A}.

Definition M (A : Type) : Type := W -> result A.

Definition ret {A} (a : A) : M A :=
  fun w => mkResult (inr a) w [].

Definition raise {A} (e : exn) : M A :=
  fun w => mkResult (inl e) w [].

Definition bind {A B} (m : M A) (f : A -> M B) : M B :=
  fun w =>
    let r := m w in
    match value r with
    | inl e => mkResult (inl e) (world r) (calls r)
    | inr a =>
        let r' := f a (world r) in
        mkResult (value r') (world r') (calls r ++ calls r')
    end.

(** [await command(request)]: one call, recorded with its answer; a failure
    of the command is raised as it is. *)
Definition await {R} (req : request) (wrap : R -> response)
    (command : W -> (E + R) * W) : M R :=
  fun w =>
    match command w with
    | (inl e, w') => mkResult (inl (AdapterError e)) w' [mkEvent req (inl e)]
    | (inr x, w') => mkResult (inr x) w' [mkEvent req (inr (wrap x))]
    end.

Notation "x <~ m ;; f" := (bind m (fun x => f))
  (at level 100, m at next level, right associativity).

(** ** The address generator *)

(** [AddressGenerator.DEFAULT_SECURITY_LEVEL] and the derivation of the
    address at an index from the seed are taken as they are. *)
Variable DEFAULT_SECURITY_LEVEL : Z.
Variable generate_address : string -> Z -> Z -> string.

(** Modelled from the spec: [AddressGenerator(seed,
    security_level).create_iterator(start)], the Address Sequence Producer,
    whose code is not part of the file.  It is an unbounded sequence of
    addresses at the indices [start], [start + 1], ...; an index is a
    non-negative integer, and a negative start index is an invalid
    argument, rejected when the first address is requested.  [k] counts
    the addresses already taken from the iterator. *)
Definition address_at (seed : string) (security_level index : Z) : Address :=
  {| address := generate_address seed index security_level;
     key_index := index;
     security_level := security_level |}.

Definition create_iterator (seed : string) (security_level start : Z)
    (k : nat) : exn + Address :=
  if start <? 0 then inl ValueError
  else inr (address_at seed security_level (start + Z.of_nat k)).

(** ** [iter_used_addresses] *)

(** The frame of the generator: its arguments, how many addresses it has
    taken from the address iterator, and whether it has ended. *)
Record generator := mkGenerator {
  gen_seed : string;
  gen_start : Z;
  gen_security_level : option Z;
  gen_taken : nat;
  gen_closed : bool
}.

(** Calling the generator function runs none of its body. *)
Definition iter_used_addresses (seed : string) (start : Z)
    (security_level : option Z) : generator :=
  {| gen_seed := seed; gen_start := start;
     gen_security_level := security_level;
     gen_taken := 0; gen_closed := false |}.

Definition close (g : generator) : generator :=
  {| gen_seed := gen_seed g; gen_start := gen_start g;
     gen_security_level := gen_security_level g;
     gen_taken := gen_taken g; gen_closed := true |}.

Definition advance (g : generator) : generator :=
  {| gen_seed := gen_seed g; gen_start := gen_start g;
     gen_security_level := gen_security_level g;
     gen_taken := S (gen_taken g); gen_closed := false |}.

(** The body of the loop for one address: [Some] is a [yield], [None] is
    the [break].  The two [reset()] after a [yield] prepare the command
    objects for their next call and do not reach the node: here every
    [await] is a call of its own. *)
Definition scan_address (adapter : Adapter) (addy : Address)
    : M (option (Address * list string)) :=
  ft_response <~ await (FindTransactions [addy]) Hashes
                   (FindTransactionsCommand adapter [addy]) ;;
  match ft_response with
  | _ :: _ => ret (Some (addy, ft_response))
  | [] =>
      wasf_response <~ await (WereAddressesSpentFrom [addy]) SpentStates
                         (WereAddressesSpentFromCommand adapter [addy]) ;;
      match wasf_response !! 0%nat with
      | None => raise IndexError
      | Some true => ret (Some (addy, []))
      | Some false => ret None
      end
  end.

(** [if security_level is None:
       security_level = AddressGenerator.DEFAULT_SECURITY_LEVEL] *)
Definition level_or_default (security_level : option Z) : Z :=
  match security_level with
  | None => DEFAULT_SECURITY_LEVEL
  | Some l => l
  end.

(** The [k]-th address a scan from [start] looks at. *)
Definition scanned (seed : string) (start : Z) (security_level : option Z)
    (k : nat) : Address :=
  address_at seed (level_or_default security_level) (start + Z.of_nat k).

(** What one request for the next item gives. *)
Inductive item :=
| Yield (r : Address * list string)
| StopAsyncIteration
| Raise (e : exn).

Record step := mkStep {
  st_item : item;
  st_gen : generator;
  st_world : W;
  st_calls : list event
}.

(** [await gen.__anext__()]: run the generator to its next [yield], to its
    end, or to an exception.  After the end or an exception the generator
    is closed. *)
Definition anext (adapter : Adapter) (g : generator) (w : W) : step :=
  if gen_closed g then mkStep StopAsyncIteration g w []
  else
    let security_level := level_or_default (gen_security_level g) in
    match create_iterator (gen_seed g) security_level (gen_start g) (gen_taken g) with
    | inl e => mkStep (Raise e) (close g) w []
    | inr addy =>
        let r := scan_address adapter addy w in
        match value r with
        | inl e => mkStep (Raise e) (close g) (world r) (calls r)
        | inr (Some y) => mkStep (Yield y) (advance g) (world r) (calls r)
        | inr None => mkStep StopAsyncIteration (close g) (world r) (calls r)
        end
    end.

(** How a consumer that asked for at most [n] items left the generator. *)
Inductive outcome :=
| Exhausted
| Failed (e : exn)
| Suspended.

Record scan := mkScan {
  yielded : list (Address * list string);
  ending : outcome;
  sc_gen : generator;
  sc_world : W;
  sc_calls : list event
}.

(** [async for item in gen], stopped after [n] items at the latest. *)
Fixpoint consume (adapter : Adapter) (n : nat) (g : generator) (w : W) : scan :=
  match n with
  | O => mkScan [] Suspended g w []
  | S n' =>
      let s := anext adapter g w in
      match st_item s with
      | Yield y =>
          let rest := consume adapter n' (st_gen s) (st_world s) in
          mkScan (y :: yielded rest) (ending rest) (sc_gen rest) (sc_world rest)
                 (st_calls s ++ sc_calls rest)
      | StopAsyncIteration =>
          mkScan [] Exhausted (st_gen s) (st_world s) (st_calls s)
      | Raise e =>
          mkScan [] (Failed e) (st_gen s) (st_world s) (st_calls s)
      end
  end.

(** *** The calls of a scan

    [scan_log addr k ys o t]: a consumer that starts at the [k]-th address
    of the sequence [addr] receives the items [ys], leaves the generator as
    [o] says, and the calls made are [t].  Each item costs one
    [FindTransactions] call, and one [WereAddressesSpentFrom] call when no
    transaction was found. *)
Definition ft_event (a : Address) (answer : E + list string) : event :=
  mkEvent (FindTransactions [a])
          (match answer with inl e => inl e | inr hs => inr (Hashes hs) end).

Definition wasf_event (a : Address) (answer : E + list bool) : event :=
  mkEvent (WereAddressesSpentFrom [a])
          (match answer with inl e => inl e | inr ss => inr (SpentStates ss) end).

Inductive scan_log (addr : nat -> Address)
  : nat -> list (Address * list string) -> outcome -> list event -> Prop :=
| log_suspended k :
    scan_log addr k [] Suspended []
| log_found k h hs ys o t :
    scan_log addr (S k) ys o t ->
    scan_log addr k ((addr k, h :: hs) :: ys) o
      (ft_event (addr k) (inr (h :: hs)) :: t)
| log_spent k ss ys o t :
    scan_log addr (S k) ys o t ->
    scan_log addr k ((addr k, []) :: ys) o
      (ft_event (addr k) (inr []) :: wasf_event (addr k) (inr (true :: ss)) :: t)
| log_unused k ss :
    scan_log addr k [] Exhausted
      [ft_event (addr k) (inr []); wasf_event (addr k) (inr (false :: ss))]
| log_ft_failed k e :
    scan_log addr k [] (Failed (AdapterError e))
      [ft_event (addr k) (inl e)]
| log_wasf_failed k e :
    scan_log addr k [] (Failed (AdapterError e))
      [ft_event (addr k) (inr []); wasf_event (addr k) (inl e)]
| log_no_state k :
    scan_log addr k [] (Failed IndexError)
      [ft_event (addr k) (inr []); wasf_event (addr k) (inr [])].

(** The addresses a request is about. *)
Definition request_addresses (req : request) : list Address :=
  match req with
  | FindTransactions addresses => addresses
  | WereAddressesSpentFrom addresses => addresses
  | _ => []
  end.

Definition is_wasf (req : request) : bool :=
  match req with WereAddressesSpentFrom _ => true | _ => false end.

Definition is_gli (req : request) : bool :=
  match req with GetLatestInclusion _ => true | _ => false end.

(** A call the node answered, and a call that failed. *)
Definition answered (ev : event) : Prop :=
  match ev_answer ev with inr _ => True | inl _ => False end.

Definition failed_with (e : E) (ev : event) : Prop :=
  ev_answer ev = inl e.

(** [WereAddressesSpentFrom] is asked about the address [a]. *)
Definition asks_spent (a : Address) (ev : event) : Prop :=
  is_wasf (ev_request ev) = true /\ a ∈ request_addresses (ev_request ev).

(** How a failure shows in the calls: when the failure [e] of a command is
    raised, the call that failed with [e] is the last one and every call
    before it was answered; otherwise every call was answered. *)
Definition propagated (raised : option exn) (t : list event) : Prop :=
  match raised with
  | Some (AdapterError e) =>
      exists pre ev, t = pre ++ [ev] /\ Forall answered pre /\ failed_with e ev
  | _ => Forall answered t
  end.

Definition raised_by {A} (v : exn + A) : option exn :=
  match v with inl e => Some e | inr _ => None end.

Definition raised_in (o : outcome) : option exn :=
  match o with Failed e => Some e | _ => None end.

(** A computation that raises nothing of its own: what it raises is the
    failure of its last call. *)
Definition faithful {A} (m : M A) : Prop :=
  forall w,
    propagated (raised_by (value (m w))) (calls (m w)) /\
    forall x, value (m w) = inl x -> exists e, x = AdapterError e.

(** What the node says of an address, whatever its state: it has
    transactions, it has none, it was spent from or not. *)
Definition has_transactions (adapter : Adapter) (a : Address) : Prop :=
  forall w, exists h hs w',
    FindTransactionsCommand adapter [a] w = (inr (h :: hs), w').

Definition no_transactions (adapter : Adapter) (a : Address) : Prop :=
  forall w, exists w', FindTransactionsCommand adapter [a] w = (inr [], w').

Definition spent_state (adapter : Adapter) (a : Address) (b : bool) : Prop :=
  forall w, exists ss w',
    WereAddressesSpentFromCommand adapter [a] w = (inr (b :: ss), w').

Definition used (adapter : Adapter) (a : Address) : Prop :=
  has_transactions adapter a \/
  (no_transactions adapter a /\ spent_state adapter a true).

Definition unused (adapter : Adapter) (a : Address) : Prop :=
  no_transactions adapter a /\ spent_state adapter a false.

(** [WereAddressesSpentFrom] answers with one state per address. *)
Definition states_parallel (adapter : Adapter) : Prop :=
  forall addresses w states w',
    WereAddressesSpentFromCommand adapter addresses w = (inr states, w') ->
    length states = length addresses.

(** The adapter that keeps only the first state of every
    [WereAddressesSpentFrom] answer. *)
Definition first_state_only (adapter : Adapter) : Adapter :=
  {| FindTransactionsCommand := FindTransactionsCommand adapter;
     WereAddressesSpentFromCommand := fun addresses w =>
       match WereAddressesSpentFromCommand adapter addresses w with
       | (inl e, w') => (inl e, w')
       | (inr states, w') => (inr (take 1 states), w')
       end;
     GetTrytesCommand := GetTrytesCommand adapter;
     FindTransactionObjectsCommand := FindTransactionObjectsCommand adapter;
     GetLatestInclusionCommand := GetLatestInclusionCommand adapter;
     GetBundlesCommand := GetBundlesCommand adapter |}.

(** ** [get_bundles_from_transaction_hashes] *)

(** [Transaction.from_tryte_string], the decoder, is taken as it is. *)
Variable from_tryte_string : string -> Transaction.

(** [list(a_set)]: Python leaves the order in which a set is enumerated
    open, so the order is a parameter of the embedding. *)
Variable set_order : gset string -> list string.

(** The first loop: the hashes of the tail transactions, and the bundle
    hashes of the others. *)
Definition sort_into_tails (all_transactions : list Transaction)
    : gset string * gset string :=
  foldl (fun acc txn =>
           if is_tail txn
           then ({[hash txn]} ∪ acc.1, acc.2)
           else (acc.1, {[bundle_hash txn]} ∪ acc.2))
        (∅, ∅) all_transactions.

(** The second loop, over the transactions found for the bundles of the
    non-tail transactions: a tail transaction whose hash is new is
    appended to [all_transactions] and its hash recorded. *)
Definition add_found_tails (found : list Transaction)
    (acc : list Transaction * gset string) : list Transaction * gset string :=
  foldl (fun acc txn =>
           if is_tail txn
           then if decide (hash txn ∈ acc.2)
                then acc
                else (acc.1 ++ [txn], {[hash txn]} ∪ acc.2)
           else acc)
        acc found.

(** [for bundle, txn in zip(txn_bundles, tail_transactions):
       bundle.is_confirmed = txn.is_confirmed], on the list [txn_bundles]
    whose bundles are separate objects; [zip] stops at the shorter list and
    the bundles beyond it keep their flag. *)
Fixpoint copy_is_confirmed (txn_bundles : list Bundle)
    (tail_transactions : list Transaction) : list Bundle :=
  match txn_bundles, tail_transactions with
  | bundle :: bundles, txn :: txns =>
      set_bundle_is_confirmed (is_confirmed txn) bundle
        :: copy_is_confirmed bundles txns
  | _, _ => txn_bundles
  end.

(** [sorted(l, key=key)]: the stable sort, as an insertion sort that puts an
    element before the elements of the same key that came after it. *)
Fixpoint insert_by {A} (key : A -> Z) (x : A) (l : list A) : list A :=
  match l with
  | [] => [x]
  | y :: l' => if key x <=? key y then x :: l else y :: insert_by key x l'
  end.

Definition sorted_by {A} (key : A -> Z) (l : list A) : list A :=
  foldr (insert_by key) [] l.

Definition tail_timestamp (bundle_ : Bundle) : Z :=
  timestamp (tail_transaction bundle_).

(** [[txn for txn in all_transactions
        if txn.hash in tail_transaction_hashes]] *)
Definition select_tails (all_transactions : list Transaction)
    (tail_transaction_hashes : gset string) : list Transaction :=
  filter (fun txn => hash txn ∈ tail_transaction_hashes) all_transactions.

(** [for txn in tail_transactions:
       txn.is_confirmed = gli_response['states'].get(txn.hash)] *)
Definition attach_states (states : gmap string bool)
    (tail_transactions : list Transaction) : list Transaction :=
  (fun txn => set_is_confirmed (states !! hash txn) txn) <$> tail_transactions.

Definition get_bundles_from_transaction_hashes (adapter : Adapter)
    (transaction_hashes : list string) (inclusion_states : bool)
    : M (list Bundle) :=
  match transaction_hashes with
  | [] => ret []
  | _ :: _ =>
      gt_response <~ await (GetTrytes transaction_hashes) Trytes
                       (GetTrytesCommand adapter transaction_hashes) ;;
      let all_transactions := from_tryte_string <$> gt_response in
      let sets := sort_into_tails all_transactions in
      let non_tail_bundle_hashes := sets.2 in
      merged <~ (if decide (non_tail_bundle_hashes = ∅)
                 then ret (all_transactions, sets.1)
                 else
                   found <~ await
                     (FindTransactionObjects (set_order non_tail_bundle_hashes))
                     TransactionObjects
                     (FindTransactionObjectsCommand adapter
                        (set_order non_tail_bundle_hashes)) ;;
                   ret (add_found_tails found (all_transactions, sets.1))) ;;
      let tail_transaction_hashes := merged.2 in
      let tail_transactions := select_tails merged.1 tail_transaction_hashes in
      tail_transactions <~
        (if inclusion_states
         then
           gli_response <~ await
             (GetLatestInclusion (set_order tail_transaction_hashes))
             InclusionStates
             (GetLatestInclusionCommand adapter
                (set_order tail_transaction_hashes)) ;;
           ret (attach_states gli_response tail_transactions)
         else ret tail_transactions) ;;
      txn_bundles <~ await (GetBundles (hash <$> tail_transactions)) Bundles
                       (GetBundlesCommand adapter (hash <$> tail_transactions)) ;;
      let txn_bundles :=
        if inclusion_states
        then copy_is_confirmed txn_bundles tail_transactions
        else txn_bundles in
      ret (sorted_by tail_timestamp txn_bundles)
  end.

(** *** The answers of a resolution

    What the node answered in a call of
    [get_bundles_from_transaction_hashes] that returned: the trytes, the
    transactions found for the bundles of the non-tail transactions (when
    there were any), the inclusion states (when requested) and the
    bundles.  The values the function computes on the way are functions
    of these answers. *)
Record answers := mkAnswers {
  ans_trytes : list string;
  ans_found : option (list Transaction);
  ans_states : option (gmap string bool);
  ans_bundles : list Bundle
}.

Definition decoded (ans : answers) : list Transaction :=
  from_tryte_string <$> ans_trytes ans.

Definition merged_tails (ans : answers) : list Transaction * gset string :=
  match ans_found ans with
  | None => (decoded ans, (sort_into_tails (decoded ans)).1)
  | Some found =>
      add_found_tails found (decoded ans, (sort_into_tails (decoded ans)).1)
  end.

Definition tails_of (ans : answers) : list Transaction :=
  let tail_transactions := select_tails (merged_tails ans).1 (merged_tails ans).2 in
  match ans_states ans with
  | None => tail_transactions
  | Some states => attach_states states tail_transactions
  end.

Definition bundles_of (ans : answers) : list Bundle :=
  match ans_states ans with
  | None => ans_bundles ans
  | Some _ => copy_is_confirmed (ans_bundles ans) (tails_of ans)
  end.

Definition calls_of (transaction_hashes : list string) (ans : answers)
    : list event :=
  [mkEvent (GetTrytes transaction_hashes) (inr (Trytes (ans_trytes ans)))]
  ++ match ans_found ans with
     | None => []
     | Some found =>
         [mkEvent (FindTransactionObjects
                     (set_order (sort_into_tails (decoded ans)).2))
                  (inr (TransactionObjects found))]
     end
  ++ match ans_states ans with
     | None => []
     | Some states =>
         [mkEvent (GetLatestInclusion (set_order (merged_tails ans).2))
                  (inr (InclusionStates states))]
     end
  ++ [mkEvent (GetBundles (hash <$> tails_of ans)) (inr (Bundles (ans_bundles ans)))].

(** The answers are those of the adapter, from the world [w] on. *)
Definition answers_of (adapter : Adapter) (transaction_hashes : list string)
    (inclusion_states : bool) (w : W) (ans : answers) (w' : W) : Prop :=
  exists w1 w2 w3,
    GetTrytesCommand adapter transaction_hashes w = (inr (ans_trytes ans), w1) /\
    match ans_found ans with
    | None => (sort_into_tails (decoded ans)).2 = ∅ /\ w2 = w1
    | Some found =>
        (sort_into_tails (decoded ans)).2 <> ∅ /\
        FindTransactionObjectsCommand adapter
          (set_order (sort_into_tails (decoded ans)).2) w1 = (inr found, w2)
    end /\
    match ans_states ans with
    | None => inclusion_states = false /\ w3 = w2
    | Some states =>
        inclusion_states = true /\
        GetLatestInclusionCommand adapter (set_order (merged_tails ans).2) w2
          = (inr states, w3)
    end /\
    GetBundlesCommand adapter (hash <$> tails_of ans) w3 = (inr (ans_bundles ans), w').

(** The hash of the tail transaction of a bundle. *)
Definition tail_hash (bundle : Bundle) : string :=
  hash (tail_transaction bundle).

(** [GetBundles] answers with the bundles of the requested tail
    transactions, in the order of the request. *)
Definition bundles_parallel (adapter : Adapter) : Prop :=
  forall tail_hashes w bundles w',
    GetBundlesCommand adapter tail_hashes w = (inr bundles, w') ->
    tail_hash <$> bundles = tail_hashes.

(** [GetTrytes] answers with the trytes of the requested transactions, in
    the order of the request. *)
Definition trytes_parallel (adapter : Adapter) : Prop :=
  forall hashes w trytes w',
    GetTrytesCommand adapter hashes w = (inr trytes, w') ->
    hash <$> (from_tryte_string <$> trytes) = hashes.

(** Whether a transaction is a tail transaction is decided by its hash,
    in every answer of the node. *)
Definition tails_consistent (adapter : Adapter) (tail_of : string -> bool)
    : Prop :=
  (forall hashes w trytes w',
      GetTrytesCommand adapter hashes w = (inr trytes, w') ->
      Forall (fun txn => is_tail txn = tail_of (hash txn))
             (from_tryte_string <$> trytes)) /\
  (forall bundles w found w',
      FindTransactionObjectsCommand adapter bundles w = (inr found, w') ->
      Forall (fun txn => is_tail txn = tail_of (hash txn)) found).

(** The transactions the second loop appends to [all_transactions]. *)
Fixpoint new_tails (found : list Transaction)
    (tail_transaction_hashes : gset string) : list Transaction :=
  match found with
  | [] => []
  | txn :: found' =>
      if is_tail txn
      then if decide (hash txn ∈ tail_transaction_hashes)
           then new_tails found' tail_transaction_hashes
           else txn :: new_tails found' ({[hash txn]} ∪ tail_transaction_hashes)
      else new_tails found' tail_transaction_hashes
  end.

(** Bundles in the order of the timestamps of their tail transactions. *)
Definition by_timestamp (b b' : Bundle) : Prop :=
  tail_timestamp b <= tail_timestamp b'.

(** *** A node that answers from a ledger

    The answers of such a node are functions of the request: the trytes and
    the bundle are given per hash, in the order of the request; the
    transactions found for a list of bundles and the inclusion states of
    a list of hashes do not depend on the order of the list. *)
Record Ledger := mkLedger {
  ledger_trytes : string -> string;
  ledger_found : list string -> list Transaction;
  ledger_states : list string -> gmap string bool;
  ledger_bundle : string -> Bundle
}.

Definition answers_from (adapter : Adapter) (L : Ledger) : Prop :=
  (forall hashes w,
      (GetTrytesCommand adapter hashes w).1 = inr (ledger_trytes L <$> hashes)) /\
  (forall bundles w,
      (FindTransactionObjectsCommand adapter bundles w).1
      = inr (ledger_found L bundles)) /\
  (forall hashes w,
      (GetLatestInclusionCommand adapter hashes w).1
      = inr (ledger_states L hashes)) /\
  (forall tail_hashes w,
      (GetBundlesCommand adapter tail_hashes w).1
      = inr (ledger_bundle L <$> tail_hashes)).

Definition order_insensitive (L : Ledger) : Prop :=
  (forall bundles bundles',
      bundles ≡ₚ bundles' -> ledger_found L bundles ≡ₚ ledger_found L bundles') /\
  (forall hashes hashes',
      hashes ≡ₚ hashes' -> ledger_states L hashes = ledger_states L hashes') /\
  (forall bundles txn txn',
      txn ∈ ledger_found L bundles -> txn' ∈ ledger_found L bundles ->
      hash txn = hash txn' -> txn = txn').

(** The answers of a ledger to a resolution. *)
Definition ledger_answers (L : Ledger) (transaction_hashes : list string)
    (inclusion_states : bool) : answers :=
  let trytes := ledger_trytes L <$> transaction_hashes in
  let non_tail_bundle_hashes :=
    (sort_into_tails (from_tryte_string <$> trytes)).2 in
  let found :=
    if decide (non_tail_bundle_hashes = ∅) then None
    else Some (ledger_found L (set_order non_tail_bundle_hashes)) in
  let states :=
    if inclusion_states
    then Some (ledger_states L
                 (set_order (merged_tails (mkAnswers trytes found None [])).2))
    else None in
  mkAnswers trytes found states
    (ledger_bundle L <$> (hash <$> tails_of (mkAnswers trytes found states []))).

(** *** What the calls of a coroutine were about *)

Definition is_ft (req : request) : bool :=
  match req with FindTransactions _ => true | _ => false end.

Definition is_fto (req : request) : bool :=
  match req with FindTransactionObjects _ => true | _ => false end.

(** The four commands of a resolution, in the order of the source, and
    the two commands of a scan after them. *)
Definition command_rank (req : request) : nat :=
  match req with
  | GetTrytes _ => 0
  | FindTransactionObjects _ => 1
  | GetLatestInclusion _ => 2
  | GetBundles _ => 3
  | FindTransactions _ => 4
  | WereAddressesSpentFrom _ => 5
  end.

(** The transactions decoded from the [GetTrytes] answers, the
    transactions of the [FindTransactionObjects] answers, and the bundles
    of the [GetBundles] answers. *)
Definition decoded_in (t : list event) : list Transaction :=
  flat_map (fun ev => match ev_answer ev with
                      | inr (Trytes trytes) => from_tryte_string <$> trytes
                      | _ => []
                      end) t.

Definition found_in (t : list event) : list Transaction :=
  flat_map (fun ev => match ev_answer ev with
                      | inr (TransactionObjects txns) => txns
                      | _ => []
                      end) t.

Definition answered_bundles (t : list event) : list Bundle :=
  flat_map (fun ev => match ev_answer ev with
                      | inr (Bundles bundles) => bundles
                      | _ => []
                      end) t.

(** The bundle hashes asked of [FindTransactionObjects], the hashes asked
    of [GetLatestInclusion] and the tail hashes asked of [GetBundles]. *)
Definition asked_bundles (t : list event) : list string :=
  flat_map (fun ev => match ev_request ev with
                      | FindTransactionObjects bundles => bundles
                      | _ => []
                      end) t.

Definition asked_states (t : list event) : list string :=
  flat_map (fun ev => match ev_request ev with
                      | GetLatestInclusion hashes => hashes
                      | _ => []
                      end) t.

Definition fetched (t : list event) : list string :=
  flat_map (fun ev => match ev_request ev with
                      | GetBundles tail_hashes => tail_hashes
                      | _ => []
                      end) t.

(** How many addresses a scan has looked at: one per item, and the one at
    which it ended. *)
Definition looked_at (ys : list (Address * list string)) (o : outcome) : nat :=
  match o with
  | Suspended => length ys
  | _ => S (length ys)
  end.

(** A bundle without its flag. *)
Definition content (bundle : Bundle) : list Transaction * Transaction :=
  (transactions bundle, tail_transaction bundle).

End Utils.

Arguments mkResult {E W A}.
Arguments value {E W A}.
Arguments world {E W A}.
Arguments calls {E W A}.

(** * A small Tangle

    A node with five transactions in three bundles, to run the two
    coroutines on.  Its world is the number of calls it has answered; it
    can be made to fail at one call. *)
Module Demo.

Definition txn (h b : string) (tail : bool) (t : Z) : Transaction :=
  {| hash := h; bundle_hash := b; is_tail := tail; timestamp := t;
     is_confirmed := None |}.

Definition tangle : list Transaction :=
  [ txn "A0" "A" true 20; txn "A1" "A" false 20;
    txn "B0" "B" true 10; txn "B1" "B" false 10;
    txn "C0" "C" true 10 ].

(** The trytes of a transaction are, here, its hash. *)
Definition from_tryte_string (trytes : string) : Transaction :=
  default (txn trytes trytes true 0)
          (head (filter (fun t => hash t = trytes) tangle)).

Definition bundle_at (tail_hash : string) : Bundle :=
  let tail := from_tryte_string tail_hash in
  {| transactions := filter (fun t => bundle_hash t = bundle_hash tail) tangle;
     tail_transaction := tail;
     bundle_is_confirmed := None |}.

Definition ledger : Ledger :=
  {| ledger_trytes := fun h => h;
     ledger_found := fun bundles =>
       filter (fun t => bundle_hash t ∈ bundles) tangle;
     ledger_states := fun _ => {[ "A0" := true; "B0" := false ]};
     ledger_bundle := bundle_at |}.

(** The addresses: the first has a transaction, the second has none but
    was spent from, the third is unused, the fourth has a transaction. *)
Definition hashes_at (a : Address) : list string :=
  if key_index a =? 0 then ["A0"]
  else if key_index a =? 3 then ["B0"]
  else [].

Definition spent_from (a : Address) : bool := key_index a =? 1.

Definition generate_address (seed : string) (index level : Z) : string :=
  seed +:+ "/" +:+ pretty index +:+ "/" +:+ pretty level.

Definition DEFAULT_SECURITY_LEVEL : Z := 2.

(** A command of the node: it fails with a timeout when it is the call
    number [fail_at], and answers otherwise. *)
Definition command {R} (fail_at : option nat) (answer : R) (w : nat)
    : (string + R) * nat :=
  match fail_at with
  | None => (inr answer, S w)
  | Some k => if Nat.eqb k w then (inl "timeout", S w) else (inr answer, S w)
  end.

Definition node (fail_at : option nat) : @Adapter string nat :=
  {| FindTransactionsCommand := fun addresses =>
       command fail_at (flat_map hashes_at addresses);
     WereAddressesSpentFromCommand := fun addresses =>
       command fail_at (spent_from <$> addresses);
     GetTrytesCommand := fun hashes =>
       command fail_at (ledger_trytes ledger <$> hashes);
     FindTransactionObjectsCommand := fun bundles =>
       command fail_at (ledger_found ledger bundles);
     GetLatestInclusionCommand := fun hashes =>
       command fail_at (ledger_states ledger hashes);
     GetBundlesCommand := fun tail_hashes =>
       command fail_at (ledger_bundle ledger <$> tail_hashes) |}.

(** A node that answers [WereAddressesSpentFrom] with no state at all. *)
Definition stateless_node : @Adapter string nat :=
  {| FindTransactionsCommand := fun addresses => command None [];
     WereAddressesSpentFromCommand := fun addresses => command None [];
     GetTrytesCommand := GetTrytesCommand (node None);
     FindTransactionObjectsCommand := FindTransactionObjectsCommand (node None);
     GetLatestInclusionCommand := GetLatestInclusionCommand (node None);
     GetBundlesCommand := GetBundlesCommand (node None) |}.

(** A node that has pruned the bundle of "A0": [GetBundles] answers with
    the bundles of the other tail transactions requested, in order. *)
Definition pruned_node : @Adapter string nat :=
  {| FindTransactionsCommand := FindTransactionsCommand (node None);
     WereAddressesSpentFromCommand := WereAddressesSpentFromCommand (node None);
     GetTrytesCommand := GetTrytesCommand (node None);
     FindTransactionObjectsCommand := FindTransactionObjectsCommand (node None);
     GetLatestInclusionCommand := GetLatestInclusionCommand (node None);
     GetBundlesCommand := fun tail_hashes =>
       command None
         (ledger_bundle ledger <$> filter (fun h => h <> "A0") tail_hashes) |}.

Definition scan (fail_at : option nat) (start : Z) (n : nat)
    : @scan string nat :=
  consume DEFAULT_SECURITY_LEVEL generate_address (node fail_at) n
          (iter_used_addresses "SEED" start None) 0%nat.

Definition bundles (fail_at : option nat) (hashes : list string)
    (inclusion_states : bool) : @result string nat (list Bundle) :=
  get_bundles_from_transaction_hashes from_tryte_string elements
    (node fail_at) hashes inclusion_states 0%nat.

(** The address of the scan at an index. *)
Definition address_of (index : Z) : Address :=
  address_at generate_address "SEED" DEFAULT_SECURITY_LEVEL index.

(** Whether the transaction with a hash is a tail transaction. *)
Definition tail_of (h : string) : bool := is_tail (from_tryte_string h).

(** A bundle with its flag. *)
Definition confirmed (v : bool) (tail_hash : string) : Bundle :=
  set_bundle_is_confirmed (Some v) (bundle_at tail_hash).

End Demo.

(** * Properties of the scan *)

Section Scanner.

Context {E W : Type}.
Variable DEFAULT_SECURITY_LEVEL : Z.
Variable generate_address : string -> Z -> Z -> string.

Abbreviation Adapter := (@Adapter E W).
Abbreviation anext := (anext DEFAULT_SECURITY_LEVEL generate_address).
Abbreviation consume := (consume DEFAULT_SECURITY_LEVEL generate_address).
Abbreviation scanned := (scanned DEFAULT_SECURITY_LEVEL generate_address).

Implicit Types (adapter : Adapter) (g : generator) (w : W) (a : Address).

(** The seven ways the body of the loop can go, read off the answers. *)
Lemma scan_address_cases adapter a w :
  scan_address adapter a w =
  match FindTransactionsCommand adapter [a] w with
  | (inl e, w1) =>
      mkResult (inl (AdapterError e)) w1 [ft_event a (inl e)]
  | (inr (h :: hs), w1) =>
      mkResult (inr (Some (a, h :: hs))) w1 [ft_event a (inr (h :: hs))]
  | (inr [], w1) =>
      match WereAddressesSpentFromCommand adapter [a] w1 with
      | (inl e, w2) =>
          mkResult (inl (AdapterError e)) w2
            [ft_event a (inr []); wasf_event a (inl e)]
      | (inr [], w2) =>
          mkResult (inl IndexError) w2
            [ft_event a (inr []); wasf_event a (inr [])]
      | (inr (true :: ss), w2) =>
          mkResult (inr (Some (a, []))) w2
            [ft_event a (inr []); wasf_event a (inr (true :: ss))]
      | (inr (false :: ss), w2) =>
          mkResult (inr None) w2
            [ft_event a (inr []); wasf_event a (inr (false :: ss))]
      end
  end.
Proof.
  unfold scan_address, bind, await.
  destruct (FindTransactionsCommand adapter [a] w) as [[e|[|h hs]] w1];
    simpl; try reflexivity.
  destruct (WereAddressesSpentFromCommand adapter [a] w1) as [[e|[|[] ss]] w2];
    reflexivity.
Qed.

(** A generator that is closed gives nothing more and calls nothing. *)
Lemma anext_closed adapter g w :
  gen_closed g = true ->
  anext adapter g w = mkStep StopAsyncIteration g w [].
Proof. intros Hc. unfold anext. now rewrite Hc. Qed.

(** An open generator with a valid start looks at its next address. *)
Lemma anext_open adapter g w :
  gen_closed g = false -> 0 <= gen_start g ->
  anext adapter g w =
  let r := scan_address adapter
             (scanned (gen_seed g) (gen_start g) (gen_security_level g) (gen_taken g)) w in
  match value r with
  | inl e => mkStep (Raise e) (close g) (world r) (calls r)
  | inr (Some y) => mkStep (Yield y) (advance g) (world r) (calls r)
  | inr None => mkStep StopAsyncIteration (close g) (world r) (calls r)
  end.
Proof.
  intros Hc Hs. unfold anext, create_iterator. rewrite Hc.
  destruct (Z.ltb_spec (gen_start g) 0) as [?|_]; [lia|]. reflexivity.
Qed.

(** An open generator with a negative start raises at once. *)
Lemma anext_negative adapter g w :
  gen_closed g = false -> gen_start g < 0 ->
  anext adapter g w = mkStep (Raise ValueError) (close g) w [].
Proof.
  intros Hc Hs. unfold anext, create_iterator. rewrite Hc.
  destruct (Z.ltb_spec (gen_start g) 0) as [_|?]; [reflexivity|lia].
Qed.

(** Every scan from a valid start has a log. *)
Lemma consume_log adapter n : forall g w,
  gen_closed g = false -> 0 <= gen_start g ->
  let s := consume adapter n g w in
  scan_log (scanned (gen_seed g) (gen_start g) (gen_security_level g))
           (gen_taken g) (yielded s) (ending s) (sc_calls s).
Proof.
  induction n as [|n IH]; intros g w Hc Hs; simpl.
  - constructor.
  - rewrite anext_open by assumption. rewrite scan_address_cases.
    set (a := scanned _ _ _ _).
    destruct (FindTransactionsCommand adapter [a] w) as [[e|[|h hs]] w1]; simpl.
    + constructor.
    + destruct (WereAddressesSpentFromCommand adapter [a] w1)
        as [[e|[|[] ss]] w2]; simpl; try (constructor; fail).
      apply log_spent. apply (IH (advance g) w2); [reflexivity | exact Hs].
    + apply log_found. apply (IH (advance g) w1); [reflexivity | exact Hs].
Qed.

(** A scan from a negative start gives nothing and calls nothing. *)
Lemma consume_negative adapter n g w :
  gen_closed g = false -> gen_start g < 0 ->
  consume adapter n g w =
  match n with
  | O => mkScan [] Suspended g w []
  | S _ => mkScan [] (Failed ValueError) (close g) w []
  end.
Proof.
  intros Hc Hs. destruct n as [|n]; simpl; [reflexivity|].
  now rewrite anext_negative.
Qed.

(** *** What a log says *)

Section Log.

Variable addr : nat -> Address.

(** The items are the addresses of the sequence, in order, none left out. *)
Lemma log_addresses k ys o (t : list (@event E)) :
  scan_log addr k ys o t -> fst <$> ys = addr <$> seq k (length ys).
Proof.
  induction 1; simpl; try reflexivity; now f_equal.
Qed.

(** Every call is about one address of the sequence, not before [k]. *)
Lemma log_requests k ys o (t : list (@event E)) :
  scan_log addr k ys o t ->
  Forall (fun ev => exists j, (k <= j)%nat /\
            request_addresses (ev_request ev) = [addr j]) t.
Proof.
  assert (Hweak : forall k (t : list (@event E)),
            Forall (fun ev => exists j, (S k <= j)%nat /\
                      request_addresses (ev_request ev) = [addr j]) t ->
            Forall (fun ev => exists j, (k <= j)%nat /\
                      request_addresses (ev_request ev) = [addr j]) t).
  { intros k0 t0 Ht. eapply Forall_impl; [exact Ht|]. intros ev (j & Hj & Hr).
    exists j. split; [lia | exact Hr]. }
  induction 1; repeat apply Forall_cons_2; try apply Forall_nil_2;
    try (exists k; split; [lia | reflexivity]); auto.
Qed.

Lemma ft_event_inj a a' (x x' : E + list string) :
  ft_event a x = ft_event a' x' -> a = a' /\ x = x'.
Proof.
  unfold ft_event. intros Heq. injection Heq as Ha Hx.
  split; [exact Ha|]. destruct x, x'; congruence.
Qed.

(** An address found with transactions is yielded with them. *)
Lemma log_found_yielded k ys o (t : list (@event E)) :
  scan_log addr k ys o t ->
  forall a h hs, ft_event a (inr (h :: hs)) ∈ t -> (a, h :: hs) ∈ ys.
Proof.
  induction 1; intros a0 h0 hs0 Hin;
    repeat (apply elem_of_cons in Hin as [Hin|Hin]);
    try (apply elem_of_nil in Hin; contradiction);
    try (apply ft_event_inj in Hin as [? ?]; simplify_eq);
    try discriminate.
  - apply list_elem_of_here.
  - apply list_elem_of_further. eauto.
  - apply list_elem_of_further. eauto.
Qed.

(** [WereAddressesSpentFrom] is asked about an address exactly when
    [FindTransactions] found nothing for it. *)
Lemma log_spent_asked k ys o (t : list (@event E)) :
  scan_log addr k ys o t ->
  forall a, (exists ev, ev ∈ t /\ asks_spent a ev) <-> ft_event a (inr []) ∈ t.
Proof.
  assert (Hft : forall a b (x : E + list string), ~ asks_spent a (ft_event b x)).
  { intros a b x [Hw _]. discriminate Hw. }
  assert (Hws : forall a b (x : E + list bool), asks_spent a (wasf_event b x) <-> a = b).
  { intros a b x. unfold asks_spent. simpl. rewrite list_elem_of_singleton.
    tauto. }
  assert (Hne : forall a b (x : E + list string) y, ft_event a x <> wasf_event b y).
  { intros a b x y Heq. discriminate Heq. }
  induction 1; intros a0; split.
  all: try (intros (ev & Hin & Hask)); try (intros Hin).
  all: repeat (apply elem_of_cons in Hin as [Hin|Hin]);
       try (apply elem_of_nil in Hin; contradiction); subst.
  all: try (exfalso; eapply Hft; eassumption).
  all: try (exfalso; eapply Hne; eassumption).
  all: try (symmetry in Hin; exfalso; eapply Hne; eassumption).
  all: try (apply ft_event_inj in Hin as [? ?]; simplify_eq).
  all: try (apply Hws in Hask; subst).
  all: try (apply list_elem_of_here).
  all: try (eexists; split;
            [apply list_elem_of_further, list_elem_of_here | apply Hws; reflexivity]).
  - apply list_elem_of_further, IHscan_log. eauto.
  - destruct (proj2 (IHscan_log a0) Hin) as (ev & ? & ?).
    exists ev. split; [now apply list_elem_of_further | assumption].
  - do 2 apply list_elem_of_further. apply IHscan_log. eauto.
  - destruct (proj2 (IHscan_log a0) Hin) as (ev & ? & ?).
    exists ev. split; [now do 2 apply list_elem_of_further | assumption].
Qed.


(** [FindTransactions] is called once for an address, when the addresses
    of the sequence are all different. *)
Lemma log_found_once k ys o (t : list (@event E)) :
  scan_log addr k ys o t ->
  (forall i j, addr i = addr j -> i = j) ->
  forall a x x', ft_event a x ∈ t -> ft_event a x' ∈ t -> x = x'.
Proof.
  intros Hlog Hinj.
  assert (Hlater : forall k ys o (t : list (@event E)) a x,
             scan_log addr (S k) ys o t -> ft_event a x ∈ t -> a <> addr k).
  { intros k0 ys0 o0 t0 a x Hl Hin Heq. apply log_requests in Hl.
    rewrite Forall_forall in Hl. destruct (Hl _ Hin) as (j & Hj & Hr).
    simpl in Hr. injection Hr as Hr. subst a. apply Hinj in Hr. lia. }
  assert (Hne : forall a b (x : E + list string) y, ft_event a x <> wasf_event b y).
  { intros a b x y Heq. discriminate Heq. }
  induction Hlog; intros a0 x x' Hin Hin'.
  all: repeat (apply elem_of_cons in Hin as [Hin|Hin]);
       try (apply elem_of_nil in Hin; contradiction).
  all: repeat (apply elem_of_cons in Hin' as [Hin'|Hin']);
       try (apply elem_of_nil in Hin'; contradiction).
  all: try (exfalso; eapply Hne; eassumption).
  all: try (apply ft_event_inj in Hin as [? ?]).
  all: try (apply ft_event_inj in Hin' as [? ?]).
  all: try congruence.
  all: try (exfalso; subst; eapply Hlater; [eassumption | eassumption | reflexivity]).
  all: eauto.
Qed.

(** A failure of a command ends the scan, and is what the scan raises. *)
Lemma log_propagated k ys o (t : list (@event E)) :
  scan_log addr k ys o t -> propagated (raised_in o) t.
Proof.
  assert (Hok : forall a hs, answered (ft_event (E:=E) a (inr hs))) by exact (fun _ _ => I).
  assert (Hok' : forall a ss, answered (wasf_event (E:=E) a (inr ss))) by exact (fun _ _ => I).
  induction 1; simpl.
  - constructor.
  - unfold propagated in *. destruct (raised_in o) as [[e| |]|].
    + destruct IHscan_log as (pre & ev & -> & Hpre & Hev).
      exists (ft_event (addr k) (inr (h :: hs)) :: pre), ev.
      split; [reflexivity|]. split; [constructor; auto | exact Hev].
    + constructor; auto.
    + constructor; auto.
    + constructor; auto.
  - unfold propagated in *. destruct (raised_in o) as [[e| |]|].
    + destruct IHscan_log as (pre & ev & -> & Hpre & Hev).
      exists (ft_event (addr k) (inr []) :: wasf_event (addr k) (inr (true :: ss)) :: pre), ev.
      split; [reflexivity|]. split; [repeat constructor; auto | exact Hev].
    + repeat constructor; auto.
    + repeat constructor; auto.
    + repeat constructor; auto.
  - repeat constructor.
  - exists [], (ft_event (addr k) (inl e)). repeat split. constructor.
  - exists [ft_event (addr k) (inr [])], (wasf_event (addr k) (inl e)).
    repeat split. repeat constructor.
  - repeat constructor.
Qed.

End Log.

Lemma scanned_inj seed start level i j :
  scanned seed start level i = scanned seed start level j -> i = j.
Proof.
  intros Heq. apply (f_equal key_index) in Heq. simpl in Heq. lia.
Qed.

(** The log of a scan that starts with the first address. *)
Lemma scan_has_log adapter seed start level n w :
  0 <= start ->
  let s := consume adapter n (iter_used_addresses seed start level) w in
  scan_log (scanned seed start level) 0 (yielded s) (ending s) (sc_calls s).
Proof.
  intros Hs. apply (consume_log adapter n (iter_used_addresses seed start level) w);
    [reflexivity | exact Hs].
Qed.

(** C1. Whatever the node answers, the addresses a scan from [start]
    yields have the indices [start], [start + 1], [start + 2], ... in this
    order: none is below [start], none is left out and none comes twice. *)
Theorem scan_yields_contiguous_indices adapter seed start level n w :
  let s := consume adapter n (iter_used_addresses seed start level) w in
  (fun y => key_index (fst y)) <$> yielded s
  = (fun k => start + Z.of_nat k) <$> seq 0 (length (yielded s)).
Proof.
  intros s. destruct (Z.lt_ge_cases start 0) as [Hneg|Hs].
  - subst s. rewrite consume_negative by (reflexivity || exact Hneg).
    now destruct n.
  - pose proof (log_addresses _ _ _ _ _ (scan_has_log adapter seed start level n w Hs))
      as Hfst.
    fold s in Hfst.
    transitivity (key_index <$> (fst <$> yielded s)).
    + now rewrite <- list_fmap_compose.
    + rewrite Hfst, <- list_fmap_compose. reflexivity.
Qed.

(** C3. In every scan: an address for which [FindTransactions] answered
    with hashes is yielded with these hashes and [WereAddressesSpentFrom]
    is not asked about it; and [WereAddressesSpentFrom] is asked about
    exactly the addresses for which [FindTransactions] found nothing. *)
Theorem scan_asks_spent_iff_nothing_found adapter seed start level n w :
  let s := consume adapter n (iter_used_addresses seed start level) w in
  (forall a h hs,
      ft_event a (inr (h :: hs)) ∈ sc_calls s ->
      (a, h :: hs) ∈ yielded s /\
      forall ev, ev ∈ sc_calls s -> ~ asks_spent a ev) /\
  (forall a,
      (exists ev, ev ∈ sc_calls s /\ asks_spent a ev) <->
      ft_event a (inr []) ∈ sc_calls s).
Proof.
  intros s. destruct (Z.lt_ge_cases start 0) as [Hneg|Hs].
  - subst s. rewrite consume_negative by (reflexivity || exact Hneg).
    destruct n; simpl; (split; [intros a h hs Hin | intros a; split;
      [intros (ev & Hin & _) | intros Hin]]); apply elem_of_nil in Hin;
      contradiction.
  - pose proof (scan_has_log adapter seed start level n w Hs) as Hlog.
    fold s in Hlog. split.
    + intros a h hs Hin. split.
      * eapply log_found_yielded; eassumption.
      * intros ev Hev Hask.
        assert (Hnone : ft_event a (inr []) ∈ sc_calls s).
        { eapply log_spent_asked; [exact Hlog|]. eauto. }
        pose proof (log_found_once _ _ _ _ _ Hlog (scanned_inj seed start level)
                      a _ _ Hin Hnone) as Heq.
        discriminate Heq.
    + eapply log_spent_asked. exact Hlog.
Qed.

(** C9. A scan from a negative start index is rejected when its first
    item is requested: [ValueError] is raised, the generator is closed,
    and no command is called, then or later. *)
Theorem scan_rejects_negative_start adapter seed start level n w :
  start < 0 ->
  anext adapter (iter_used_addresses seed start level) w
  = mkStep (Raise ValueError) (close (iter_used_addresses seed start level)) w [] /\
  let s := consume adapter (S n) (iter_used_addresses seed start level) w in
  ending s = Failed ValueError /\ yielded s = [] /\ sc_calls s = [] /\
  sc_world s = w /\
  st_calls (anext adapter (sc_gen s) (sc_world s)) = [].
Proof.
  intros Hneg. split.
  - apply anext_negative; [reflexivity | exact Hneg].
  - rewrite consume_negative by (reflexivity || exact Hneg). simpl.
    repeat split.
Qed.

(** *** Only the first state is read *)

Lemma scan_address_first_state adapter a w :
  let r := scan_address adapter a w in
  let r' := scan_address (first_state_only adapter) a w in
  value r' = value r /\ world r' = world r /\
  ev_request <$> calls r' = ev_request <$> calls r.
Proof.
  simpl. rewrite !scan_address_cases. simpl.
  destruct (FindTransactionsCommand adapter [a] w) as [[e|[|h hs]] w1];
    simpl; try (repeat split; fail).
  destruct (WereAddressesSpentFromCommand adapter [a] w1) as [[e|[|[] ss]] w2];
    simpl; repeat split.
Qed.

Lemma anext_first_state adapter g w :
  let s := anext adapter g w in
  let s' := anext (first_state_only adapter) g w in
  st_item s' = st_item s /\ st_gen s' = st_gen s /\ st_world s' = st_world s /\
  ev_request <$> st_calls s' = ev_request <$> st_calls s.
Proof.
  simpl. unfold anext.
  destruct (gen_closed g); [repeat split|].
  destruct (create_iterator _ _ _ _ _) as [e|a]; [repeat split|].
  destruct (scan_address_first_state adapter a w) as (Hv & Hw & Hc).
  simpl in Hv, Hw, Hc. rewrite Hv.
  destruct (value (scan_address adapter a w)) as [e|[y|]]; simpl;
    repeat split; assumption.
Qed.

Lemma consume_first_state adapter n : forall g w,
  let s := consume adapter n g w in
  let s' := consume (first_state_only adapter) n g w in
  yielded s' = yielded s /\ ending s' = ending s /\ sc_gen s' = sc_gen s /\
  sc_world s' = sc_world s /\
  ev_request <$> sc_calls s' = ev_request <$> sc_calls s.
Proof.
  induction n as [|n IH]; intros g w; simpl; [repeat split|].
  destruct (anext_first_state adapter g w) as (Hi & Hg & Hw & Hc).
  simpl in Hi, Hg, Hw, Hc. rewrite Hi.
  destruct (st_item (anext adapter g w)) as [y| |e]; simpl;
    try (repeat split; assumption).
  rewrite Hg, Hw.
  destruct (IH (st_gen (anext adapter g w)) (st_world (anext adapter g w)))
    as (Hy & He & Hg' & Hw' & Hc').
  simpl in Hy, He, Hg', Hw', Hc'.
  rewrite !fmap_app, Hc, Hc', Hy. repeat split; assumption.
Qed.

(** With one state per address, [states[0]] is there. *)
Lemma consume_no_index_error adapter n : forall g w,
  states_parallel adapter ->
  ending (consume adapter n g w) <> Failed IndexError.
Proof.
  intros g w Hpar. revert g w.
  induction n as [|n IH]; intros g w; simpl; [discriminate|].
  unfold anext.
  destruct (gen_closed g); [discriminate|].
  destruct (create_iterator _ _ _ _ _) as [e|a] eqn:Hit.
  { unfold create_iterator in Hit. destruct (_ <? _); simplify_eq. discriminate. }
  rewrite scan_address_cases.
  destruct (FindTransactionsCommand adapter [a] w) as [[e|[|h hs]] w1];
    simpl; try discriminate; try apply IH.
  destruct (WereAddressesSpentFromCommand adapter [a] w1) as [[e|[|[] ss]] w2]
    eqn:Hw; simpl; try discriminate; try apply IH.
  apply Hpar in Hw. discriminate Hw.
Qed.

(** C10. When [FindTransactions] found nothing, the scan reads the first
    state of the [WereAddressesSpentFrom] answer and no other: with the
    answer cut to its first state, the scan yields the same items, ends
    the same way and makes the same requests.  When the answer has one
    state per address of the request, the first state is there and the
    scan does not raise [IndexError]. *)
Theorem scan_reads_first_state adapter seed start level n w :
  let g := iter_used_addresses seed start level in
  let s := consume adapter n g w in
  let s' := consume (first_state_only adapter) n g w in
  (yielded s' = yielded s /\ ending s' = ending s /\ sc_gen s' = sc_gen s /\
   sc_world s' = sc_world s /\
   ev_request <$> sc_calls s' = ev_request <$> sc_calls s) /\
  (states_parallel adapter -> ending s <> Failed IndexError).
Proof.
  split.
  - apply consume_first_state.
  - intros Hpar. now apply consume_no_index_error.
Qed.

(** *** The first unused address ends the scan *)

Lemma scan_address_used adapter a w :
  used adapter a ->
  exists hs, value (scan_address adapter a w) = inr (Some (a, hs)) /\
    Forall (fun ev => request_addresses (ev_request ev) = [a])
           (calls (scan_address adapter a w)).
Proof.
  intros [Hft|[Hft Hsp]]; rewrite scan_address_cases.
  - destruct (Hft w) as (h & hs & w1 & ->). exists (h :: hs).
    split; [reflexivity | repeat constructor].
  - destruct (Hft w) as (w1 & ->). destruct (Hsp w1) as (ss & w2 & ->).
    exists []. split; [reflexivity | repeat constructor].
Qed.

Lemma scan_address_unused adapter a w :
  unused adapter a ->
  value (scan_address adapter a w) = inr None /\
  Forall (fun ev => request_addresses (ev_request ev) = [a])
         (calls (scan_address adapter a w)).
Proof.
  intros [Hft Hsp]. rewrite scan_address_cases.
  destruct (Hft w) as (w1 & ->). destruct (Hsp w1) as (ss & w2 & ->).
  split; [reflexivity | repeat constructor].
Qed.

Lemma consume_until_unused adapter d : forall n g w,
  let addr := scanned (gen_seed g) (gen_start g) (gen_security_level g) in
  gen_closed g = false -> 0 <= gen_start g -> (d < n)%nat ->
  (forall k, (k < d)%nat -> used adapter (addr (gen_taken g + k)%nat)) ->
  unused adapter (addr (gen_taken g + d)%nat) ->
  let s := consume adapter n g w in
  ending s = Exhausted /\
  fst <$> yielded s = addr <$> seq (gen_taken g) d /\
  Forall (fun ev => exists j, (gen_taken g <= j <= gen_taken g + d)%nat /\
            request_addresses (ev_request ev) = [addr j]) (sc_calls s) /\
  gen_closed (sc_gen s) = true.
Proof.
  induction d as [|d IH]; intros n g w addr Hc Hs Hn Hused Hun;
    (destruct n as [|n]; [lia|]); simpl; rewrite anext_open by assumption;
    simpl; fold addr.
  - rewrite Nat.add_0_r in Hun.
    destruct (scan_address_unused adapter _ w Hun) as [-> Hcalls]. simpl.
    repeat split. eapply Forall_impl; [exact Hcalls|].
    intros ev Hev. exists (gen_taken g). split; [lia | exact Hev].
  - assert (Hu0 : used adapter (addr (gen_taken g))).
    { specialize (Hused 0%nat). rewrite Nat.add_0_r in Hused. apply Hused. lia. }
    destruct (scan_address_used adapter _ w Hu0) as (hs & -> & Hcalls). simpl.
    destruct (IH n (advance g) (world (scan_address adapter (addr (gen_taken g)) w)))
      as (He & Hy & Hf & Hcl); try assumption; try reflexivity; try lia.
    + intros k Hk. simpl. replace (S (gen_taken g + k)) with (gen_taken g + S k)%nat by lia.
      apply Hused. lia.
    + simpl. replace (S (gen_taken g + d)) with (gen_taken g + S d)%nat by lia.
      exact Hun.
    + simpl in Hy, Hf. repeat split; try assumption.
      * simpl. f_equal. exact Hy.
      * apply Forall_app_2.
        -- eapply Forall_impl; [exact Hcalls|].
           intros ev Hev. exists (gen_taken g). split; [lia | exact Hev].
        -- eapply Forall_impl; [exact Hf|].
           intros ev (j & Hj & Hev). exists j. split; [lia | exact Hev].
Qed.

(** C2. Let the address at the index [start + d] be unused (no transaction
    found, not spent from) and the addresses at the indices before it be
    used.  Then a scan from [start] ends by itself as soon as it is asked
    for more than [d] items: it has yielded one item for each index from
    [start] to [start + d - 1] and nothing else, it has made no call about
    an address of an index above [start + d], and the generator is
    closed. *)
Theorem scan_ends_at_first_unused adapter seed start level d n w :
  0 <= start ->
  (forall k, (k < d)%nat -> used adapter (scanned seed start level k)) ->
  unused adapter (scanned seed start level d) ->
  (d < n)%nat ->
  let s := consume adapter n (iter_used_addresses seed start level) w in
  ending s = Exhausted /\
  (fun y => key_index (fst y)) <$> yielded s
    = (fun k => start + Z.of_nat k) <$> seq 0 d /\
  (forall ev a, ev ∈ sc_calls s -> a ∈ request_addresses (ev_request ev) ->
                key_index a <= start + Z.of_nat d) /\
  gen_closed (sc_gen s) = true /\
  st_item (anext adapter (sc_gen s) (sc_world s)) = StopAsyncIteration /\
  st_calls (anext adapter (sc_gen s) (sc_world s)) = [].
Proof.
  intros Hs Hused Hun Hn s.
  destruct (consume_until_unused adapter d n (iter_used_addresses seed start level) w)
    as (He & Hy & Hf & Hcl); try assumption; try reflexivity.
  fold s in He, Hy, Hf, Hcl. simpl in Hy, Hf.
  split; [exact He|]. split.
  - transitivity (key_index <$> (fst <$> yielded s)).
    + now rewrite <- list_fmap_compose.
    + rewrite Hy, <- list_fmap_compose. reflexivity.
  - split.
    + intros ev a Hev Ha. rewrite Forall_forall in Hf.
      destruct (Hf ev Hev) as (j & Hj & Hr). rewrite Hr in Ha.
      apply list_elem_of_singleton in Ha. subst a. simpl. lia.
    + split; [exact Hcl|]. rewrite anext_closed by exact Hcl. split; reflexivity.
Qed.

End Scanner.

(** * Properties of the resolution *)

Section Resolver.

Context {E W : Type}.
Variable from_tryte_string : string -> Transaction.

Abbreviation Adapter := (@Adapter E W).
Abbreviation answers_of := (answers_of from_tryte_string).
Abbreviation calls_of := (@calls_of E from_tryte_string).
Abbreviation bundles_of := (bundles_of from_tryte_string).
Abbreviation tails_of := (tails_of from_tryte_string).
Abbreviation merged_tails := (merged_tails from_tryte_string).
Abbreviation decoded := (decoded from_tryte_string).

Implicit Types (adapter : Adapter) (w : W) (set_order : gset string -> list string).

(** A call with answers runs to its end and returns the sorted bundles. *)
Lemma resolve_answers adapter set_order h hs inclusion_states w ans w' :
  answers_of set_order adapter (h :: hs) inclusion_states w ans w' ->
  get_bundles_from_transaction_hashes from_tryte_string set_order adapter
      (h :: hs) inclusion_states w
  = mkResult (inr (sorted_by tail_timestamp (bundles_of ans))) w'
             (calls_of set_order (h :: hs) ans).
Proof.
  intros (w1 & w2 & w3 & Hgt & Hfound & Hst & Hgb).
  destruct ans as [trytes found states bundles].
  unfold get_bundles_from_transaction_hashes, answers_of,
    calls_of, bundles_of, tails_of,
    merged_tails, decoded, bind, await in *.
  simpl in *. rewrite Hgt. simpl.
  destruct found as [found|]; destruct Hfound as [Hne Hfound].
  - destruct (decide _) as [Heq|_]; [contradiction|]. simpl.
    rewrite Hfound. simpl.
    destruct states as [states|]; destruct Hst as [-> Hst]; simpl in *.
    + rewrite Hst. simpl. rewrite Hgb. reflexivity.
    + subst w3. rewrite Hgb. reflexivity.
  - subst w2. destruct (decide _) as [_|Hn]; [|contradiction]. simpl.
    destruct states as [states|]; destruct Hst as [-> Hst]; simpl in *.
    + rewrite Hst. simpl. rewrite Hgb. reflexivity.
    + subst w3. rewrite Hgb. reflexivity.
Qed.

(** A call that returns has answers. *)
Lemma resolve_returns adapter set_order h hs inclusion_states w bundles :
  value (get_bundles_from_transaction_hashes from_tryte_string set_order adapter
      (h :: hs) inclusion_states w) = inr bundles ->
  exists ans w',
    answers_of set_order adapter (h :: hs) inclusion_states w ans w' /\
    bundles = sorted_by tail_timestamp (bundles_of ans).
Proof.
  unfold get_bundles_from_transaction_hashes, bind, await. simpl.
  destruct (GetTrytesCommand adapter (h :: hs) w) as [[e|trytes] w1] eqn:Hgt;
    simpl; [discriminate|].
  set (all := from_tryte_string <$> trytes).
  destruct (decide ((sort_into_tails all).2 = ∅)) as [Hempty|Hne]; simpl.
  - destruct inclusion_states; simpl.
    + destruct (GetLatestInclusionCommand _ _ _) as [[e|states] w3] eqn:Hst;
        simpl; [discriminate|].
      destruct (GetBundlesCommand _ _ _) as [[e|bs] w4] eqn:Hgb;
        simpl; [discriminate|].
      intros [= <-]. exists (mkAnswers trytes None (Some states) bs), w4.
      split; [|reflexivity]. exists w1, w1, w3. simpl. auto.
    + destruct (GetBundlesCommand _ _ _) as [[e|bs] w4] eqn:Hgb;
        simpl; [discriminate|].
      intros [= <-]. exists (mkAnswers trytes None None bs), w4.
      split; [|reflexivity]. exists w1, w1, w1. simpl. auto.
  - destruct (FindTransactionObjectsCommand _ _ _) as [[e|found] w2] eqn:Hfo;
      simpl; [discriminate|].
    destruct inclusion_states; simpl.
    + destruct (GetLatestInclusionCommand _ _ _) as [[e|states] w3] eqn:Hst;
        simpl; [discriminate|].
      destruct (GetBundlesCommand _ _ _) as [[e|bs] w4] eqn:Hgb;
        simpl; [discriminate|].
      intros [= <-]. exists (mkAnswers trytes (Some found) (Some states) bs), w4.
      split; [|reflexivity]. exists w1, w2, w3. simpl. auto.
    + destruct (GetBundlesCommand _ _ _) as [[e|bs] w4] eqn:Hgb;
        simpl; [discriminate|].
      intros [= <-]. exists (mkAnswers trytes (Some found) None bs), w4.
      split; [|reflexivity]. exists w1, w2, w2. simpl. auto.
Qed.

(** *** Failures *)

Lemma faithful_ret {A} (a : A) : faithful (E:=E) (W:=W) (ret a).
Proof. intros w. split; [constructor | discriminate]. Qed.

Lemma faithful_await {R} req (wrap : R -> response)
    (command : W -> (E + R) * W) :
  faithful (await req wrap command).
Proof.
  intros w. unfold await. destruct (command w) as [[e|x] w']; simpl; split.
  - exists [], (mkEvent req (inl e)). repeat split. constructor.
  - intros x [= <-]. eauto.
  - repeat constructor.
  - discriminate.
Qed.

Lemma faithful_bind {A B} (m : M A) (f : A -> M B) :
  faithful m -> (forall a, faithful (f a)) -> faithful (E:=E) (W:=W) (bind m f).
Proof.
  intros Hm Hf w. unfold bind. destruct (Hm w) as [Hp Hx].
  destruct (value (m w)) as [x|a] eqn:Hv; simpl.
  - split; [exact Hp|]. intros x0 [= <-]. now apply Hx.
  - destruct (Hf a (world (m w))) as [Hp' Hx']. split; [|exact Hx'].
    simpl in Hp. unfold propagated in *.
    destruct (raised_by (value (f a (world (m w))))) as [[e| |]|].
    + destruct Hp' as (pre & ev & -> & Hpre & Hev).
      exists (calls (m w) ++ pre), ev. rewrite app_assoc.
      split; [reflexivity|]. split; [now apply Forall_app_2 | exact Hev].
    + now apply Forall_app_2.
    + now apply Forall_app_2.
    + now apply Forall_app_2.
Qed.

Lemma resolve_faithful adapter set_order transaction_hashes inclusion_states :
  faithful (get_bundles_from_transaction_hashes from_tryte_string set_order adapter
      transaction_hashes inclusion_states).
Proof.
  unfold get_bundles_from_transaction_hashes.
  destruct transaction_hashes as [|h hs]; [apply faithful_ret|].
  apply faithful_bind; [apply faithful_await|]. intros trytes.
  apply faithful_bind.
  { destruct (decide _); [apply faithful_ret|].
    apply faithful_bind; [apply faithful_await|]. intros found.
    apply faithful_ret. }
  intros merged. apply faithful_bind.
  { destruct inclusion_states; [|apply faithful_ret].
    apply faithful_bind; [apply faithful_await|]. intros states.
    apply faithful_ret. }
  intros tail_transactions.
  apply faithful_bind; [apply faithful_await|]. intros txn_bundles.
  apply faithful_ret.
Qed.

(** What a failed call in the calls of a computation tells. *)
Lemma propagated_failed raised (t : list (@event E)) ev e :
  propagated raised t -> ev ∈ t -> failed_with e ev ->
  raised = Some (AdapterError e) /\
  exists pre, t = pre ++ [ev] /\ Forall answered pre.
Proof.
  intros Hp Hin Hev.
  assert (Hno : forall l : list (@event E), Forall answered l -> ev ∈ l -> False).
  { intros l Hl Hl'. rewrite Forall_forall in Hl. specialize (Hl _ Hl').
    unfold answered, failed_with in *. now rewrite Hev in Hl. }
  unfold propagated in Hp. destruct raised as [[e'| |]|];
    try (exfalso; eapply Hno; eassumption).
  destruct Hp as (pre & ev' & -> & Hpre & Hev').
  apply elem_of_app in Hin as [Hin|Hin]; [exfalso; eapply Hno; eassumption|].
  apply list_elem_of_singleton in Hin. subst ev'.
  unfold failed_with in *. rewrite Hev in Hev'. injection Hev' as <-.
  split; [reflexivity|]. exists pre. split; [reflexivity | exact Hpre].
Qed.

(** C7. Called with no transaction hash, the resolution returns the empty
    list, whether inclusion states are requested or not, and calls no
    command: the world is as it was. *)
Theorem resolve_nothing adapter set_order inclusion_states w :
  get_bundles_from_transaction_hashes from_tryte_string set_order adapter
      [] inclusion_states w = mkResult (inr []) w [].
Proof. reflexivity. Qed.

End Resolver.

(** * Failures of the node *)

Section Failures.

Context {E W : Type}.
Variable DEFAULT_SECURITY_LEVEL : Z.
Variable generate_address : string -> Z -> Z -> string.
Variable from_tryte_string : string -> Transaction.

Abbreviation Adapter := (@Adapter E W).
Abbreviation anext := (anext DEFAULT_SECURITY_LEVEL generate_address).
Abbreviation consume := (consume DEFAULT_SECURITY_LEVEL generate_address).

Implicit Types (adapter : Adapter) (g : generator) (w : W).

Lemma scan_propagated adapter seed start level n w :
  let s := consume adapter n (iter_used_addresses seed start level) w in
  propagated (raised_in (ending s)) (sc_calls s).
Proof.
  intros s. destruct (Z.lt_ge_cases start 0) as [Hneg|Hs].
  - subst s. rewrite consume_negative by (reflexivity || exact Hneg).
    destruct n; constructor.
  - eapply log_propagated. apply scan_has_log. exact Hs.
Qed.

(** The items a consumer has received stay received. *)
Lemma consume_prefix adapter m : forall n g w,
  (m <= n)%nat ->
  yielded (consume adapter m g w) `prefix_of` yielded (consume adapter n g w).
Proof.
  induction m as [|m IH]; intros n g w Hmn; simpl; [apply prefix_nil|].
  destruct n as [|n]; [lia|]. simpl.
  destruct (st_item (anext adapter g w)) as [y| |e]; simpl;
    try apply prefix_nil.
  apply prefix_cons, IH. lia.
Qed.

(** A generator that ended, by itself or by an exception, is closed. *)
Lemma consume_ended_closed adapter n : forall g w,
  ending (consume adapter n g w) <> Suspended ->
  gen_closed (sc_gen (consume adapter n g w)) = true.
Proof.
  induction n as [|n IH]; intros g w; simpl; [congruence|].
  unfold anext. destruct (gen_closed g) eqn:Hc; simpl; [auto|].
  destruct (create_iterator _ _ _ _ _) as [e|a]; simpl; [auto|].
  destruct (value (scan_address adapter a w)) as [e|[y|]]; simpl; auto.
Qed.

Lemma propagated_raised (t : list (@event E)) e :
  propagated (Some (AdapterError e)) t ->
  exists pre ev, t = pre ++ [ev] /\ Forall answered pre /\ failed_with e ev.
Proof. exact (fun H => H). Qed.

(** C8. A failure of a command is raised as it is, at once, by the scan
    and by the resolution.

    In a scan: a call that failed with [e] is the last call, every call
    before it was answered, and the scan ends by raising [e]; when the scan
    raises the failure [e] of a command, its last call failed with [e];
    the generator is closed after it, and the items yielded before are
    those the consumer had received.

    In a resolution: a call that failed with [e] is the last call, every
    call before it was answered, and the resolution raises [e] instead of
    returning bundles; whatever a resolution raises is the failure of its
    last call. *)
Theorem failure_is_raised_unchanged
    adapter seed start level set_order transaction_hashes inclusion_states n w :
  let s := consume adapter n (iter_used_addresses seed start level) w in
  let r := get_bundles_from_transaction_hashes from_tryte_string set_order adapter
      transaction_hashes inclusion_states w in
  ((forall ev e, ev ∈ sc_calls s -> failed_with e ev ->
      ending s = Failed (AdapterError e) /\
      (exists pre, sc_calls s = pre ++ [ev] /\ Forall answered pre) /\
      gen_closed (sc_gen s) = true) /\
   (forall e, ending s = Failed (AdapterError e) ->
      exists pre ev, sc_calls s = pre ++ [ev] /\ Forall answered pre /\
                     failed_with e ev) /\
   (forall m, (m <= n)%nat ->
      yielded (consume adapter m (iter_used_addresses seed start level) w)
        `prefix_of` yielded s)) /\
  ((forall ev e, ev ∈ calls r -> failed_with e ev ->
      value r = inl (AdapterError e) /\
      (exists pre, calls r = pre ++ [ev] /\ Forall answered pre)) /\
   (forall x, value r = inl x ->
      exists e pre ev, x = AdapterError e /\ calls r = pre ++ [ev] /\
                       Forall answered pre /\ failed_with e ev)).
Proof.
  intros s r. split; [split; [|split]|split].
  - intros ev e Hin Hev.
    destruct (propagated_failed _ _ _ _ (scan_propagated adapter seed start level n w)
                Hin Hev) as [Hraised Hpre].
    fold s in Hraised, Hpre.
    assert (Hend : ending s = Failed (AdapterError e)).
    { destruct (ending s); simpl in Hraised; congruence. }
    split; [exact Hend|]. split; [exact Hpre|].
    apply consume_ended_closed. fold s. rewrite Hend. discriminate.
  - intros e Hend. pose proof (scan_propagated adapter seed start level n w) as Hp.
    cbv zeta in Hp. fold s in Hp. rewrite Hend in Hp. exact Hp.
  - intros m Hm. now apply consume_prefix.
  - intros ev e Hin Hev.
    destruct (resolve_faithful from_tryte_string adapter set_order
                transaction_hashes inclusion_states w) as [Hp _].
    fold r in Hp.
    destruct (propagated_failed _ _ _ _ Hp Hin Hev) as [Hraised Hpre].
    split; [|exact Hpre].
    destruct (value r); simpl in Hraised; congruence.
  - intros x Hx.
    destruct (resolve_faithful from_tryte_string adapter set_order
                transaction_hashes inclusion_states w) as [Hp Hx'].
    fold r in Hp, Hx'. destruct (Hx' x Hx) as [e ->]. rewrite Hx in Hp.
    destruct Hp as (pre & ev & ? & ? & ?). exists e, pre, ev. auto.
Qed.

End Failures.

(** * The stable sort *)

Section Sorting.

Context {A : Type} (key : A -> Z).

Abbreviation by_key := (fun x y : A => key x <= key y).

Lemma insert_by_Permutation x l : insert_by key x l ≡ₚ x :: l.
Proof.
  induction l as [|y l IH]; simpl; [reflexivity|].
  destruct (key x <=? key y); [reflexivity|].
  rewrite IH. apply Permutation_swap.
Qed.

Lemma sorted_by_Permutation l : sorted_by key l ≡ₚ l.
Proof.
  induction l as [|x l IH]; simpl; [reflexivity|].
  rewrite insert_by_Permutation. now apply Permutation_skip.
Qed.

Lemma elem_of_sorted_by x l : x ∈ sorted_by key l <-> x ∈ l.
Proof. now rewrite sorted_by_Permutation. Qed.

Lemma insert_by_sorted x l :
  StronglySorted by_key l -> StronglySorted by_key (insert_by key x l).
Proof.
  induction l as [|y l IH]; simpl; intros Hl.
  - repeat constructor.
  - apply StronglySorted_cons in Hl as [Hy Hl].
    destruct (Z.leb_spec (key x) (key y)) as [Hxy|Hxy].
    + apply StronglySorted_cons. split.
      * constructor; [exact Hxy|]. eapply Forall_impl; [exact Hy|].
        simpl. intros z Hz. lia.
      * apply StronglySorted_cons. split; assumption.
    + apply StronglySorted_cons. split; [|apply IH, Hl].
      rewrite insert_by_Permutation. constructor; [lia | exact Hy].
Qed.

Lemma sorted_by_sorted l : StronglySorted by_key (sorted_by key l).
Proof.
  induction l as [|x l IH]; simpl; [constructor|]. now apply insert_by_sorted.
Qed.

(** Sorting forgets the order of the input when no two different elements
    have the same key. *)
Lemma sorted_by_unique l1 l2 :
  l1 ≡ₚ l2 ->
  (forall x y, x ∈ l1 -> y ∈ l1 -> key x = key y -> x = y) ->
  sorted_by key l1 = sorted_by key l2.
Proof.
  intros Hperm Hkeys. apply (StronglySorted_unique_strong by_key).
  - intros x y Hx Hy Hxy Hyx. apply Hkeys.
    + exact (proj1 (elem_of_sorted_by _ _) Hx).
    + rewrite Hperm. exact (proj1 (elem_of_sorted_by _ _) Hy).
    + simpl in Hxy, Hyx. lia.
  - apply sorted_by_sorted.
  - apply sorted_by_sorted.
  - now rewrite !sorted_by_Permutation.
Qed.

End Sorting.

(** * The bundles of a resolution *)

Section Bundles.

Context {E W : Type}.
Variable from_tryte_string : string -> Transaction.

Abbreviation Adapter := (@Adapter E W).
Abbreviation answers_of := (answers_of from_tryte_string).
Abbreviation calls_of := (@calls_of E from_tryte_string).
Abbreviation bundles_of := (bundles_of from_tryte_string).
Abbreviation tails_of := (tails_of from_tryte_string).
Abbreviation merged_tails := (merged_tails from_tryte_string).
Abbreviation decoded := (decoded from_tryte_string).

Implicit Types (adapter : Adapter) (w : W) (set_order : gset string -> list string).
Implicit Types (txn : Transaction) (ts found : list Transaction).
Implicit Types (S : gset string) (bs : list Bundle).

(** *** The two loops *)

Lemma sort_into_tails_spec ts :
  sort_into_tails ts
  = (list_to_set (hash <$> filter (fun txn => is_tail txn) ts),
     list_to_set (bundle_hash <$> filter (fun txn => ~ is_tail txn) ts)).
Proof.
  unfold sort_into_tails.
  assert (Hgen : forall (acc : gset string * gset string),
    foldl (fun acc txn =>
             if is_tail txn
             then ({[hash txn]} ∪ acc.1, acc.2)
             else (acc.1, {[bundle_hash txn]} ∪ acc.2)) acc ts
    = (list_to_set (hash <$> filter (fun txn => is_tail txn) ts) ∪ acc.1,
       list_to_set (bundle_hash <$> filter (fun txn => ~ is_tail txn) ts) ∪ acc.2)).
  { induction ts as [|txn ts IH]; intros [S N]; simpl.
    - f_equal; set_solver.
    - rewrite IH. rewrite !filter_cons. destruct (is_tail txn) eqn:Ht; simpl.
      + destruct (decide (Is_true true)) as [_|Hn]; [|exfalso; apply Hn; exact I].
        destruct (decide (~ Is_true true)) as [Hn|_]; [exfalso; apply Hn; exact I|].
        simpl. f_equal; set_solver.
      + destruct (decide (Is_true false)) as [Hn|_]; [destruct Hn|].
        destruct (decide (~ Is_true false)) as [_|Hn]; [|exfalso; apply Hn; intros []].
        simpl. f_equal; set_solver. }
  rewrite Hgen. simpl. f_equal; set_solver.
Qed.

Lemma elem_of_tails h ts :
  h ∈ (sort_into_tails ts).1 <-> exists txn, txn ∈ ts /\ is_tail txn = true /\ hash txn = h.
Proof.
  rewrite sort_into_tails_spec. simpl. rewrite elem_of_list_to_set, list_elem_of_fmap.
  split.
  - intros (txn & -> & Hin). apply list_elem_of_filter in Hin as [Ht Hin].
    exists txn. split; [exact Hin|]. split; [now apply Is_true_true | reflexivity].
  - intros (txn & Hin & Ht & <-). exists txn. split; [reflexivity|].
    apply list_elem_of_filter. split; [now apply Is_true_true | exact Hin].
Qed.

Lemma add_found_tails_spec found : forall ts S,
  add_found_tails found (ts, S)
  = (ts ++ new_tails found S, S ∪ list_to_set (hash <$> new_tails found S)).
Proof.
  unfold add_found_tails.
  induction found as [|txn found IH]; intros ts S; simpl.
  - rewrite app_nil_r. f_equal. set_solver.
  - destruct (is_tail txn); [|apply IH].
    destruct (decide (hash txn ∈ S)); [apply IH|].
    rewrite IH. rewrite <- app_assoc. simpl. f_equal. set_solver.
Qed.

Lemma elem_of_new_tails found : forall S txn,
  txn ∈ new_tails found S ->
  txn ∈ found /\ is_tail txn = true /\ hash txn ∉ S.
Proof.
  induction found as [|t found IH]; intros S txn; simpl.
  - intros Hin. apply elem_of_nil in Hin. contradiction.
  - destruct (is_tail t) eqn:Ht.
    + destruct (decide (hash t ∈ S)) as [Hin|Hnin].
      * intros H. destruct (IH _ _ H) as (? & ? & ?).
        split; [now apply list_elem_of_further | auto].
      * intros H. apply elem_of_cons in H as [->|H].
        -- split; [apply list_elem_of_here | auto].
        -- destruct (IH _ _ H) as (? & ? & Hn).
           split; [now apply list_elem_of_further|]. split; [assumption|].
           set_solver.
    + intros H. destruct (IH _ _ H) as (? & ? & ?).
      split; [now apply list_elem_of_further | auto].
Qed.

Lemma new_tails_NoDup found : forall S, NoDup (hash <$> new_tails found S).
Proof.
  induction found as [|t found IH]; intros S; simpl; [constructor|].
  destruct (is_tail t); [|apply IH].
  destruct (decide (hash t ∈ S)); [apply IH|].
  simpl. apply NoDup_cons. split; [|apply IH].
  intros Hin. apply list_elem_of_fmap in Hin as (txn & Heq & Hin).
  apply elem_of_new_tails in Hin as (_ & _ & Hn). set_solver.
Qed.

Lemma new_tails_complete found : forall S txn,
  txn ∈ found -> is_tail txn = true -> hash txn ∉ S ->
  hash txn ∈ hash <$> new_tails found S.
Proof.
  induction found as [|t found IH]; intros S txn Hin Ht Hn.
  - apply elem_of_nil in Hin. contradiction.
  - simpl. apply elem_of_cons in Hin as [<-|Hin].
    + rewrite Ht. destruct (decide (hash txn ∈ S)); [contradiction|].
      simpl. apply list_elem_of_here.
    + destruct (is_tail t) eqn:Ht'; [|now apply IH].
      destruct (decide (hash t ∈ S)); [now apply IH|].
      simpl. destruct (decide (hash txn = hash t)) as [->|Hne].
      * apply list_elem_of_here.
      * apply list_elem_of_further, IH; [assumption..|]. set_solver.
Qed.

(** *** The confirmation flags *)

Lemma attach_states_hash states ts :
  hash <$> attach_states states ts = hash <$> ts.
Proof.
  unfold attach_states. rewrite <- list_fmap_compose. reflexivity.
Qed.

Lemma attach_states_confirmed states ts :
  Forall (fun txn => is_confirmed txn = states !! hash txn)
         (attach_states states ts).
Proof.
  unfold attach_states. apply Forall_fmap. apply Forall_forall. reflexivity.
Qed.

Lemma copy_is_confirmed_tail_hash bs : forall ts,
  tail_hash <$> copy_is_confirmed bs ts = tail_hash <$> bs.
Proof.
  induction bs as [|b bs IH]; intros [|t ts]; simpl; try reflexivity.
  now rewrite IH.
Qed.

Lemma copy_is_confirmed_flags (f : string -> option bool) bs : forall ts,
  tail_hash <$> bs = hash <$> ts ->
  Forall (fun txn => is_confirmed txn = f (hash txn)) ts ->
  Forall (fun b => bundle_is_confirmed b = f (tail_hash b))
         (copy_is_confirmed bs ts).
Proof.
  induction bs as [|b bs IH]; intros [|t ts]; simpl; intros Heq Hts;
    try discriminate; [constructor|].
  injection Heq as Hh Heq. apply Forall_cons in Hts as [Ht Hts].
  constructor; [|now apply IH].
  simpl. rewrite Ht. f_equal. symmetry. exact Hh.
Qed.

Lemma copy_is_confirmed_fmap (g : string -> Bundle) ts :
  copy_is_confirmed (g <$> (hash <$> ts)) ts
  = (fun txn => set_bundle_is_confirmed (is_confirmed txn) (g (hash txn))) <$> ts.
Proof.
  induction ts as [|t ts IH]; simpl; [reflexivity|]. f_equal. exact IH.
Qed.

(** *** Inclusion states *)

(** Without inclusion states, [GetLatestInclusion] is not called. *)
Lemma resolve_without_states_calls adapter set_order transaction_hashes w :
  Forall (fun ev => is_gli (ev_request ev) = false)
         (calls (get_bundles_from_transaction_hashes from_tryte_string set_order adapter
             transaction_hashes false w)).
Proof.
  unfold get_bundles_from_transaction_hashes, bind, await.
  destruct transaction_hashes as [|h hs]; simpl; [constructor|].
  destruct (GetTrytesCommand adapter (h :: hs) w) as [[e|trytes] w1]; simpl;
    [repeat constructor|].
  destruct (decide _) as [Hempty|Hne]; simpl.
  - destruct (GetBundlesCommand _ _ _) as [[e|bs] w4]; simpl; repeat constructor.
  - destruct (FindTransactionObjectsCommand _ _ _) as [[e|found] w2]; simpl;
      [repeat constructor|].
    destruct (GetBundlesCommand _ _ _) as [[e|bs] w4]; simpl; repeat constructor.
Qed.

(** C6 (amended). With inclusion states, and when [GetBundles] answers
    with the bundles of the requested tail transactions, in the order of
    the request: for every bundle returned, the resolution has called
    [GetLatestInclusion] exactly once, and the flag of the bundle is what
    the answer gives for the hash of its tail transaction, and nothing
    when the answer has no state for this hash.

    Without inclusion states, whatever the node answers:
    [GetLatestInclusion] is not called, and the bundles returned are the
    bundles of the [GetBundles] answer as they came, sorted. *)
Theorem resolve_inclusion_states adapter set_order transaction_hashes w :
  (bundles_parallel adapter ->
   let r := get_bundles_from_transaction_hashes from_tryte_string set_order adapter
      transaction_hashes true w in
   forall bundles b,
     value r = inr bundles -> b ∈ bundles ->
     exists hashes states,
       filter (fun ev => is_gli (ev_request ev)) (calls r)
       = [mkEvent (GetLatestInclusion hashes) (inr (InclusionStates states))] /\
       bundle_is_confirmed b = states !! tail_hash b) /\
  (let r := get_bundles_from_transaction_hashes from_tryte_string set_order adapter
      transaction_hashes false w in
   Forall (fun ev => is_gli (ev_request ev) = false) (calls r) /\
   forall bundles,
     value r = inr bundles -> transaction_hashes <> [] ->
     exists tail_hashes txn_bundles,
       mkEvent (GetBundles tail_hashes) (inr (Bundles txn_bundles)) ∈ calls r /\
       bundles = sorted_by tail_timestamp txn_bundles).
Proof.
  split.
  - cbv zeta. intros Hpar bundles b Hv Hb.
    destruct transaction_hashes as [|h hs].
    { injection Hv as <-. apply elem_of_nil in Hb. contradiction. }
    destruct (resolve_returns from_tryte_string adapter set_order h hs true w bundles Hv)
      as (ans & w' & Hans & ->).
    rewrite (resolve_answers from_tryte_string adapter set_order h hs true w ans w' Hans).
    destruct Hans as (w1 & w2 & w3 & Hgt & Hfound & Hst & Hgb).
    destruct ans as [trytes found [states|] bs]; simpl in Hst;
      [|destruct Hst; discriminate].
    exists (set_order (merged_tails (mkAnswers trytes found (Some states) bs)).2), states.
    split.
    + unfold calls_of, calls. cbn [ans_found ans_states ans_trytes ans_bundles].
      destruct found; reflexivity.
    + apply elem_of_sorted_by in Hb. apply Hpar in Hgb.
      unfold bundles_of in Hb. cbn [ans_states ans_bundles] in Hb.
      cbn [ans_bundles] in Hgb.
      assert (Hflags : Forall (fun b => bundle_is_confirmed b = states !! tail_hash b)
                (copy_is_confirmed bs
                   (tails_of (mkAnswers trytes found (Some states) bs)))).
      { apply (copy_is_confirmed_flags (fun h => states !! h)); [exact Hgb|].
        unfold tails_of. cbn [ans_states]. apply attach_states_confirmed. }
      rewrite Forall_forall in Hflags. apply Hflags. exact Hb.
  - cbv zeta. split; [apply resolve_without_states_calls|].
    intros bundles Hv Hne.
    destruct transaction_hashes as [|h hs]; [contradiction|].
    destruct (resolve_returns from_tryte_string adapter set_order h hs false w bundles Hv)
      as (ans & w' & Hans & ->).
    rewrite (resolve_answers from_tryte_string adapter set_order h hs false w ans w' Hans).
    destruct Hans as (w1 & w2 & w3 & Hgt & Hfound & Hst & Hgb).
    destruct ans as [trytes found [states|] bs]; simpl in Hst;
      [destruct Hst; discriminate|].
    eexists _, bs. split; [|reflexivity].
    unfold calls_of, calls. cbn [ans_found ans_states ans_trytes ans_bundles].
    rewrite !elem_of_app. right. right. right.
    apply list_elem_of_singleton. reflexivity.
Qed.

(** *** One bundle per tail transaction *)

Lemma NoDup_fmap_filter {A B} (f : A -> B) (P : A -> Prop)
    `{!forall x, Decision (P x)} (l : list A) :
  NoDup (f <$> l) -> NoDup (f <$> filter P l).
Proof.
  induction l as [|x l IH]; simpl; [constructor|].
  rewrite NoDup_cons. intros [Hx Hl]. rewrite filter_cons.
  destruct (decide (P x)); [|now apply IH].
  simpl. apply NoDup_cons. split; [|now apply IH].
  intros Hin. apply Hx. apply list_elem_of_fmap in Hin as (y & Hy & Hin).
  apply list_elem_of_filter in Hin as [_ Hin].
  rewrite Hy. now apply list_elem_of_fmap_2.
Qed.

Lemma tails_of_hash ans :
  hash <$> tails_of ans
  = hash <$> select_tails (merged_tails ans).1 (merged_tails ans).2.
Proof.
  unfold tails_of. destruct (ans_states ans); [apply attach_states_hash | reflexivity].
Qed.

Lemma bundles_of_tail_hash ans :
  tail_hash <$> bundles_of ans = tail_hash <$> ans_bundles ans.
Proof.
  unfold bundles_of. destruct (ans_states ans);
    [apply copy_is_confirmed_tail_hash | reflexivity].
Qed.

(** The merged transactions keep the decoded ones, and have different
    hashes when the decoded ones have and the node is consistent on which
    transactions are tail transactions. *)
Lemma merged_tails_keeps ans :
  (forall txn, txn ∈ decoded ans -> txn ∈ (merged_tails ans).1) /\
  (forall h, h ∈ (sort_into_tails (decoded ans)).1 -> h ∈ (merged_tails ans).2).
Proof.
  unfold merged_tails. destruct (ans_found ans) as [found|]; simpl; [|auto].
  rewrite add_found_tails_spec. simpl. split.
  - intros txn Hin. apply elem_of_app. now left.
  - intros h Hin. apply elem_of_union. now left.
Qed.

Lemma merged_tails_NoDup (tail_of : string -> bool) ans :
  NoDup (hash <$> decoded ans) ->
  Forall (fun txn => is_tail txn = tail_of (hash txn)) (decoded ans) ->
  (forall found, ans_found ans = Some found ->
     Forall (fun txn => is_tail txn = tail_of (hash txn)) found) ->
  NoDup (hash <$> (merged_tails ans).1).
Proof.
  intros Hnd Hdec Hfound. unfold merged_tails.
  destruct (ans_found ans) as [found|]; simpl; [|exact Hnd].
  specialize (Hfound found eq_refl).
  rewrite add_found_tails_spec. simpl. rewrite fmap_app. apply NoDup_app.
  split; [exact Hnd|]. split; [|apply new_tails_NoDup].
  intros h Hin Hin'.
  apply list_elem_of_fmap in Hin as (t0 & -> & Hin).
  apply list_elem_of_fmap in Hin' as (t & Heq & Hin').
  apply elem_of_new_tails in Hin' as (Htf & Htail & Hnew).
  rewrite Forall_forall in Hdec, Hfound.
  apply Hnew. apply elem_of_tails. exists t0. split; [exact Hin|].
  split; [|exact Heq].
  rewrite (Hdec _ Hin), Heq, <- (Hfound _ Htf). exact Htail.
Qed.

(** *** The order of the input *)

Abbreviation ledger_answers := (ledger_answers from_tryte_string).

Lemma command_answer {R} (c : (E + R) * W) (x : R) :
  c.1 = inr x -> c = (inr x, c.2).
Proof. destruct c as [a w']. simpl. now intros ->. Qed.

(** On a node that answers from a ledger, a resolution returns, and its
    answers are those of the ledger. *)
Lemma ledger_answers_of adapter L set_order h hs inclusion_states w :
  answers_from adapter L ->
  exists w',
    answers_of set_order adapter (h :: hs) inclusion_states w
      (ledger_answers set_order L (h :: hs) inclusion_states) w'.
Proof.
  intros (Hgt & Hfo & Hst & Hgb). unfold answers_of, ledger_answers.
  set (trytes := ledger_trytes L <$> h :: hs).
  set (w1 := (GetTrytesCommand adapter (h :: hs) w).2).
  cbn [ans_trytes ans_found ans_states ans_bundles].
  unfold decoded at 1 2. cbn [ans_trytes].
  destruct (decide ((sort_into_tails (from_tryte_string <$> trytes)).2 = ∅))
    as [Hempty|Hne].
  - destruct inclusion_states.
    + eexists. exists w1, w1. eexists. split; [apply command_answer, Hgt|].
      split; [split; [exact Hempty | reflexivity]|].
      split; [split; [reflexivity | apply command_answer, Hst]|].
      apply command_answer, Hgb.
    + eexists. exists w1, w1, w1. split; [apply command_answer, Hgt|].
      split; [split; [exact Hempty | reflexivity]|].
      split; [split; reflexivity|].
      apply command_answer, Hgb.
  - destruct inclusion_states.
    + eexists. exists w1. eexists. eexists. split; [apply command_answer, Hgt|].
      split; [split; [exact Hne | apply command_answer, Hfo]|].
      split; [split; [reflexivity | apply command_answer, Hst]|].
      apply command_answer, Hgb.
    + eexists. exists w1. eexists. eexists. split; [apply command_answer, Hgt|].
      split; [split; [exact Hne | apply command_answer, Hfo]|].
      split; [split; reflexivity|].
      apply command_answer, Hgb.
Qed.

Lemma sort_into_tails_perm ts ts' :
  ts ≡ₚ ts' -> sort_into_tails ts = sort_into_tails ts'.
Proof.
  intros Hp. rewrite !sort_into_tails_spec. f_equal.
  - apply list_to_set_perm_L. now rewrite Hp.
  - apply list_to_set_perm_L. now rewrite Hp.
Qed.

(** The tail transactions appended do not depend on the order in which
    the node lists the transactions it found, when a hash stands for one
    transaction. *)
Lemma new_tails_perm found found' S :
  found ≡ₚ found' ->
  (forall txn txn', txn ∈ found -> txn' ∈ found ->
                    hash txn = hash txn' -> txn = txn') ->
  new_tails found S ≡ₚ new_tails found' S.
Proof.
  intros Hp Hinj.
  assert (Hsub : forall f f' : list Transaction,
             f ≡ₚ f' ->
             (forall txn txn', txn ∈ f -> txn' ∈ f ->
                               hash txn = hash txn' -> txn = txn') ->
             forall x, x ∈ new_tails f S -> x ∈ new_tails f' S).
  { intros f f' Hff Hi x Hx.
    pose proof (elem_of_new_tails _ _ _ Hx) as (Hxf & Ht & Hn).
    assert (Hxf' : x ∈ f') by now rewrite <- Hff.
    pose proof (new_tails_complete f' S x Hxf' Ht Hn) as Hin.
    apply list_elem_of_fmap in Hin as (x' & Heq & Hin).
    pose proof (elem_of_new_tails _ _ _ Hin) as (Hx'f & _ & _).
    rewrite <- Hff in Hx'f. rewrite (Hi x x' Hxf Hx'f Heq). exact Hin. }
  apply NoDup_Permutation.
  - eapply NoDup_fmap_1, new_tails_NoDup.
  - eapply NoDup_fmap_1, new_tails_NoDup.
  - intros x. split.
    + now apply Hsub.
    + apply Hsub; [now symmetry|].
      intros txn txn' Hin Hin'. apply Hinj; now rewrite Hp.
Qed.

(** The bundles a ledger gives, before they are sorted, are the same up
    to their order for two orders of the hashes given, whatever the order
    in which the sets are enumerated. *)
Lemma ledger_bundles_perm L set_order set_order' hashes hashes' inclusion_states :
  order_insensitive L ->
  (forall S, set_order S ≡ₚ elements S) ->
  (forall S, set_order' S ≡ₚ elements S) ->
  hashes ≡ₚ hashes' ->
  bundles_of (ledger_answers set_order L hashes inclusion_states)
  ≡ₚ bundles_of (ledger_answers set_order' L hashes' inclusion_states).
Proof.
  intros (Hfo & Hst & Hinj) Ho Ho' Hp.
  unfold ledger_answers, bundles_of, tails_of, merged_tails, decoded.
  cbn [ans_trytes ans_found ans_states ans_bundles].
  set (D := from_tryte_string <$> (ledger_trytes L <$> hashes)).
  set (D' := from_tryte_string <$> (ledger_trytes L <$> hashes')).
  assert (HD : D ≡ₚ D') by (subst D D'; now rewrite Hp).
  rewrite <- (sort_into_tails_perm _ _ HD).
  set (S1 := (sort_into_tails D).1). set (N := (sort_into_tails D).2).
  assert (Hfound : ledger_found L (set_order N) ≡ₚ ledger_found L (set_order' N)).
  { apply Hfo. now rewrite Ho, Ho'. }
  pose proof (new_tails_perm _ _ S1 Hfound (Hinj _)) as Hnew.
  assert (Hsel : forall S ts ts', ts ≡ₚ ts' -> select_tails ts S ≡ₚ select_tails ts' S).
  { intros S ts ts' Hts. unfold select_tails. now rewrite Hts. }
  assert (Hatt : forall st ts ts', ts ≡ₚ ts' -> attach_states st ts ≡ₚ attach_states st ts').
  { intros st ts ts' Hts. unfold attach_states. now rewrite Hts. }
  destruct (decide (N = ∅)) as [Hempty|Hne];
    cbn [ans_trytes ans_found ans_states ans_bundles fst snd].
  - destruct inclusion_states;
      cbn [ans_trytes ans_found ans_states ans_bundles fst snd].
    + rewrite !copy_is_confirmed_fmap.
      rewrite (Hst (set_order S1) (set_order' S1)) by now rewrite Ho, Ho'.
      apply fmap_Permutation, Hatt, Hsel, HD.
    + do 2 apply fmap_Permutation. apply Hsel, HD.
  - rewrite !add_found_tails_spec. cbn [fst snd].
    assert (Hset : S1 ∪ list_to_set (hash <$> new_tails (ledger_found L (set_order N)) S1)
                   = S1 ∪ list_to_set (hash <$> new_tails (ledger_found L (set_order' N)) S1)
                   :> gset string).
    { f_equal. apply list_to_set_perm_L. now rewrite Hnew. }
    rewrite <- Hset.
    set (M := S1 ∪ list_to_set (hash <$> new_tails (ledger_found L (set_order N)) S1)).
    assert (Hall : D ++ new_tails (ledger_found L (set_order N)) S1
                   ≡ₚ D' ++ new_tails (ledger_found L (set_order' N)) S1).
    { now rewrite HD, Hnew. }
    destruct inclusion_states;
      cbn [ans_trytes ans_found ans_states ans_bundles fst snd].
    + rewrite !copy_is_confirmed_fmap.
      rewrite (Hst (set_order M) (set_order' M)) by now rewrite Ho, Ho'.
      apply fmap_Permutation, Hatt, Hsel, Hall.
    + do 2 apply fmap_Permutation. apply Hsel, Hall.
Qed.

(** C4 (amended). The bundles returned are in ascending order of the
    timestamps of their tail transactions, whatever the node answers.

    On a node that answers from a ledger, whose answers do not depend on
    the order of a request, two resolutions of the same hashes given in
    two orders return the same bundles up to their order; they return the
    same list when no two different bundles returned have the same
    timestamp. *)
Theorem resolve_sorted_by_timestamp
    adapter L set_order set_order' transaction_hashes transaction_hashes'
    inclusion_states w w' :
  (forall bundles,
      value (get_bundles_from_transaction_hashes from_tryte_string set_order adapter
          transaction_hashes inclusion_states w)
        = inr bundles ->
      StronglySorted by_timestamp bundles) /\
  (answers_from adapter L -> order_insensitive L ->
   (forall S, set_order S ≡ₚ elements S) ->
   (forall S, set_order' S ≡ₚ elements S) ->
   transaction_hashes ≡ₚ transaction_hashes' ->
   exists bundles bundles',
     value (get_bundles_from_transaction_hashes from_tryte_string set_order adapter
         transaction_hashes inclusion_states w)
       = inr bundles /\
     value (get_bundles_from_transaction_hashes from_tryte_string set_order' adapter
         transaction_hashes' inclusion_states w')
       = inr bundles' /\
     bundles ≡ₚ bundles' /\
     ((forall b b', b ∈ bundles -> b' ∈ bundles ->
                    tail_timestamp b = tail_timestamp b' -> b = b') ->
      bundles = bundles')).
Proof.
  split.
  - intros bundles Hv. destruct transaction_hashes as [|h hs].
    + injection Hv as <-. constructor.
    + destruct (resolve_returns from_tryte_string adapter set_order h hs
                  inclusion_states w bundles Hv) as (ans & w1 & _ & ->).
      exact (sorted_by_sorted tail_timestamp _).
  - intros Hfrom Hins Ho Ho' Hp.
    destruct transaction_hashes as [|h hs].
    { apply Permutation_nil_l in Hp. subst transaction_hashes'.
      exists [], []. repeat split; reflexivity. }
    destruct transaction_hashes' as [|h' hs'].
    { apply Permutation_nil_r in Hp. discriminate Hp. }
    destruct (ledger_answers_of adapter L set_order h hs inclusion_states w Hfrom)
      as (w1 & Hans).
    destruct (ledger_answers_of adapter L set_order' h' hs' inclusion_states w' Hfrom)
      as (w1' & Hans').
    pose proof (ledger_bundles_perm L set_order set_order' (h :: hs) (h' :: hs')
                  inclusion_states Hins Ho Ho' Hp) as Hperm.
    eexists _, _.
    rewrite (resolve_answers from_tryte_string _ _ _ _ _ _ _ _ Hans).
    rewrite (resolve_answers from_tryte_string _ _ _ _ _ _ _ _ Hans').
    split; [reflexivity|]. split; [reflexivity|]. split.
    + now rewrite !sorted_by_Permutation.
    + intros Hkeys. apply sorted_by_unique; [exact Hperm|].
      intros b b' Hb Hb'. apply Hkeys; now apply elem_of_sorted_by.
Qed.

End Bundles.

(** * The small Tangle, scanned and resolved *)

Section DemoFacts.

Import Demo.

(** The scan of the addresses of the seed: two used addresses, then the
    unused one, which ends it. *)
Example demo_scan :
  yielded (Demo.scan None 0 5) = [(address_of 0, ["A0"]); (address_of 1, [])] /\
  ending (Demo.scan None 0 5) = Exhausted /\
  sc_world (Demo.scan None 0 5) = 5%nat.
Proof. vm_compute. repeat split. Qed.

(** A tail transaction and a non-tail transaction of another, earlier
    bundle: the earlier bundle comes first. *)
Example demo_bundles :
  value (Demo.bundles None ["A0"; "B1"] false)
  = inr [bundle_at "B0"; bundle_at "A0"].
Proof. vm_compute. reflexivity. Qed.

Lemma demo_hash h : hash (from_tryte_string h) = h.
Proof.
  unfold from_tryte_string.
  destruct (head (filter (fun t => hash t = h) tangle)) as [t|] eqn:Hh;
    [|reflexivity].
  apply head_Some_elem_of, list_elem_of_filter in Hh as [Hh _]. exact Hh.
Qed.

Lemma demo_states_parallel fail_at : states_parallel (node fail_at).
Proof.
  intros addresses w states w' Heq. simpl in Heq. unfold command in Heq.
  destruct fail_at as [k|]; [destruct (Nat.eqb k w)|];
    simplify_eq; apply length_fmap.
Qed.

Lemma demo_bundles_parallel fail_at : bundles_parallel (node fail_at).
Proof.
  intros tail_hashes w bs w' Heq. simpl in Heq. unfold command in Heq.
  assert (Hall : tail_hash <$> (bundle_at <$> tail_hashes) = tail_hashes).
  { clear Heq. induction tail_hashes as [|h l IH]; simpl; [reflexivity|].
    f_equal; [apply demo_hash | exact IH]. }
  destruct fail_at as [k|]; [destruct (Nat.eqb k w)|]; simplify_eq; exact Hall.
Qed.

Lemma demo_trytes_parallel fail_at :
  trytes_parallel from_tryte_string (node fail_at).
Proof.
  intros hashes w trytes w' Heq. simpl in Heq. unfold command in Heq.
  assert (Hall : hash <$> (from_tryte_string <$> ((fun h => h) <$> hashes)) = hashes).
  { clear Heq. induction hashes as [|h l IH]; simpl; [reflexivity|].
    f_equal; [apply demo_hash | exact IH]. }
  destruct fail_at as [k|]; [destruct (Nat.eqb k w)|]; simplify_eq; exact Hall.
Qed.

Lemma demo_tangle_consistent :
  Forall (fun t => is_tail t = tail_of (hash t)) tangle.
Proof. repeat constructor. Qed.

Lemma demo_tails_consistent fail_at :
  tails_consistent from_tryte_string (node fail_at) tail_of.
Proof.
  split.
  - intros hashes w trytes w' Heq. simpl in Heq. unfold command in Heq.
    assert (Hall : Forall (fun t => is_tail t = tail_of (hash t))
                     (from_tryte_string <$> ((fun h => h) <$> hashes))).
    { apply Forall_fmap, Forall_fmap, Forall_forall. intros h _. simpl.
      unfold tail_of. now rewrite demo_hash. }
    destruct fail_at as [k|]; [destruct (Nat.eqb k w)|]; simplify_eq; exact Hall.
  - intros bs w found w' Heq. simpl in Heq. unfold command in Heq.
    assert (Hall : Forall (fun t => is_tail t = tail_of (hash t))
                     (filter (fun t => bundle_hash t ∈ bs) tangle)).
    { apply Forall_forall. intros t Ht. apply list_elem_of_filter in Ht as [_ Ht].
      pose proof demo_tangle_consistent as Hc. rewrite Forall_forall in Hc.
      now apply Hc. }
    destruct fail_at as [k|]; [destruct (Nat.eqb k w)|]; simplify_eq; exact Hall.
Qed.

Lemma demo_answers_from : answers_from (node None) ledger.
Proof. repeat split. Qed.

Lemma demo_order_insensitive : order_insensitive ledger.
Proof.
  split; [|split].
  - intros bs bs' Hp. simpl.
    rewrite (list_filter_iff (fun t => bundle_hash t ∈ bs)
                             (fun t => bundle_hash t ∈ bs')); [reflexivity|].
    intros t. now rewrite Hp.
  - reflexivity.
  - intros bs t t' Ht Ht' Heq. simpl in Ht, Ht'.
    apply list_elem_of_filter in Ht as [_ Ht].
    apply list_elem_of_filter in Ht' as [_ Ht'].
    unfold tangle in Ht, Ht'.
    repeat (apply elem_of_cons in Ht as [->|Ht]);
      try (apply elem_of_nil in Ht; contradiction);
      repeat (apply elem_of_cons in Ht' as [->|Ht']);
      try (apply elem_of_nil in Ht'; contradiction);
      try reflexivity; discriminate Heq.
Qed.

(** *** The scan of the small Tangle *)

Lemma demo_used_0 : used (node None) (address_of 0).
Proof. left. intros w. eexists _, _, _. reflexivity. Qed.

Lemma demo_used_1 : used (node None) (address_of 1).
Proof.
  right. split; intros w; [eexists | eexists _, _]; reflexivity.
Qed.

Lemma demo_unused_2 : unused (node None) (address_of 2).
Proof. split; intros w; [eexists | eexists _, _]; reflexivity. Qed.

(** The scan from 0 ends at the index 2, the first unused one, although
    the address at the index 3 has a transaction. *)
Lemma scan_ends_at_first_unused_witness :
  unused (node None) (address_of 2) /\
  hashes_at (address_of 3) = ["B0"] /\
  ending (Demo.scan None 0 5) = Exhausted /\
  (fun y => key_index (fst y)) <$> yielded (Demo.scan None 0 5) = [0; 1].
Proof.
  split; [exact demo_unused_2|]. split; [reflexivity|].
  destruct (scan_ends_at_first_unused DEFAULT_SECURITY_LEVEL generate_address
              (node None) "SEED" 0 None 2 5 0%nat) as (Hend & Hidx & _).
  - lia.
  - intros [|[|k]] Hk; [exact demo_used_0 | exact demo_used_1 | lia].
  - exact demo_unused_2.
  - lia.
  - split; [exact Hend | exact Hidx].
Defined.

(** A scan from the index -1. *)
Lemma scan_rejects_negative_start_witness :
  -1 < 0 /\
  ending (Demo.scan None (-1) 3) = Failed ValueError /\
  sc_calls (Demo.scan None (-1) 3) = [].
Proof.
  split; [lia|].
  destruct (scan_rejects_negative_start DEFAULT_SECURITY_LEVEL generate_address
              (node None) "SEED" (-1) None 2 0%nat) as (_ & Hend & _ & Hcalls & _).
  - lia.
  - split; [exact Hend | exact Hcalls].
Defined.

(** The node gives one state per address, and its scan raises no
    [IndexError]. *)
Lemma scan_reads_first_state_witness :
  states_parallel (node None) /\
  ending (Demo.scan None 0 5) <> Failed IndexError.
Proof.
  split; [apply demo_states_parallel|].
  apply (scan_reads_first_state DEFAULT_SECURITY_LEVEL generate_address
           (node None) "SEED" 0 None 5 0%nat).
  apply demo_states_parallel.
Defined.

(** *** A node that fails at its second call *)

Lemma failure_is_raised_unchanged_witness :
  ending (Demo.scan (Some 1%nat) 0 5) = Failed (AdapterError "timeout") /\
  yielded (Demo.scan (Some 1%nat) 0 5) = [(address_of 0, ["A0"])] /\
  value (Demo.bundles (Some 1%nat) ["A1"; "B0"] true)
  = inl (AdapterError "timeout").
Proof.
  destruct (failure_is_raised_unchanged DEFAULT_SECURITY_LEVEL generate_address
              from_tryte_string (node (Some 1%nat)) "SEED" 0 None elements
              ["A1"; "B0"] true 5 0%nat) as [(Hscan & _ & _) (Hres & _)].
  split; [|split].
  - apply (Hscan (mkEvent (FindTransactions [address_of 1]) (inl "timeout")));
      [|reflexivity].
    vm_compute. apply list_elem_of_further, list_elem_of_here.
  - vm_compute. reflexivity.
  - apply (Hres (mkEvent (FindTransactionObjects ["A"]) (inl "timeout")));
      [|reflexivity].
    vm_compute. apply list_elem_of_further, list_elem_of_here.
Defined.

(** *** The bundles of the small Tangle *)

(** With inclusion states, the bundle of "A0" has the state the node gave
    for "A0". *)
Lemma resolve_inclusion_states_witness :
  bundles_parallel (node None) /\
  exists hashes states,
    filter (fun ev => is_gli (ev_request ev))
           (calls (Demo.bundles None ["A0"; "B1"] true))
    = [mkEvent (GetLatestInclusion hashes) (inr (InclusionStates states))] /\
    states !! "A0" = Some true /\ states !! "B0" = Some false.
Proof.
  split; [apply demo_bundles_parallel|].
  pose proof (proj1 (resolve_inclusion_states from_tryte_string (node None)
                       elements ["A0"; "B1"] 0%nat) (demo_bundles_parallel None))
    as Hstates.
  cbv zeta in Hstates.
  assert (Hv : value (Demo.bundles None ["A0"; "B1"] true)
               = inr [confirmed false "B0"; confirmed true "A0"])
    by (vm_compute; reflexivity).
  destruct (Hstates _ (confirmed true "A0") Hv) as (hashes & states & Hcalls & HA).
  { apply list_elem_of_further, list_elem_of_here. }
  destruct (Hstates _ (confirmed false "B0") Hv) as (hashes' & states' & Hcalls' & HB).
  { apply list_elem_of_here. }
  exists hashes, states. split; [exact Hcalls|].
  split; [symmetry; exact HA|].
  change (Demo.bundles None ["A0"; "B1"] true) with
    (get_bundles_from_transaction_hashes from_tryte_string elements (node None)
       ["A0"; "B1"] true 0%nat) in Hcalls.
  rewrite Hcalls in Hcalls'. injection Hcalls' as _ <-. symmetry. exact HB.
Defined.

(** A node that has pruned the bundle of "A0" answers [GetBundles] for
    "A0" and "B0" with the bundle of "B0" alone: this bundle gets the
    state given for "A0", true, though the state given for "B0" is
    false. *)
Lemma resolve_pruned_bundle_counterexample :
  value (get_bundles_from_transaction_hashes from_tryte_string elements
           pruned_node ["A0"; "B0"] true 0%nat)
  = inr [confirmed true "B0"] /\
  tail_hash (confirmed true "B0") = "B0" /\
  bundle_is_confirmed (confirmed true "B0") = Some true /\
  exists hashes,
    filter (fun ev => is_gli (ev_request ev))
           (calls (get_bundles_from_transaction_hashes from_tryte_string elements
                     pruned_node ["A0"; "B0"] true 0%nat))
    = [mkEvent (GetLatestInclusion hashes)
               (inr (InclusionStates (ledger_states ledger hashes)))] /\
    ledger_states ledger hashes !! "B0" = Some false.
Proof.
  split; [vm_compute; reflexivity|]. split; [reflexivity|]. split; [reflexivity|].
  eexists. split; [vm_compute; reflexivity|]. reflexivity.
Qed.

(** The same hash given twice gives its bundle twice. *)
Lemma resolve_repeated_hash_counterexample :
  value (Demo.bundles None ["A0"; "A0"] false)
  = inr [bundle_at "A0"; bundle_at "A0"] /\
  tail_hash <$> [bundle_at "A0"; bundle_at "A0"] = ["A0"; "A0"].
Proof. split; vm_compute; reflexivity. Qed.

(** Two bundles with different timestamps come in the same order for the
    two orders of the hashes. *)
Lemma resolve_sorted_by_timestamp_witness :
  ["A0"; "B1"] ≡ₚ ["B1"; "A0"] /\
  value (Demo.bundles None ["A0"; "B1"] false)
  = inr [bundle_at "B0"; bundle_at "A0"] /\
  value (Demo.bundles None ["B1"; "A0"] false)
  = inr [bundle_at "B0"; bundle_at "A0"].
Proof.
  assert (Hp : ["A0"; "B1"] ≡ₚ ["B1"; "A0"]) by apply Permutation_swap.
  split; [exact Hp|].
  assert (Hv : value (Demo.bundles None ["A0"; "B1"] false)
               = inr [bundle_at "B0"; bundle_at "A0"])
    by (vm_compute; reflexivity).
  split; [exact Hv|].
  destruct (proj2 (resolve_sorted_by_timestamp from_tryte_string (node None)
                     ledger elements elements ["A0"; "B1"] ["B1"; "A0"] false
                     0%nat 0%nat))
    as (bs & bs' & Hbs & Hbs' & _ & Heq).
  - exact demo_answers_from.
  - exact demo_order_insensitive.
  - reflexivity.
  - reflexivity.
  - exact Hp.
  - unfold Demo.bundles in Hv. rewrite Hv in Hbs. injection Hbs as <-.
    unfold Demo.bundles. rewrite Hbs'. f_equal. symmetry. apply Heq.
    intros b b' Hb Hb' Hts.
    repeat (apply elem_of_cons in Hb as [->|Hb]);
      try (apply elem_of_nil in Hb; contradiction);
      repeat (apply elem_of_cons in Hb' as [->|Hb']);
      try (apply elem_of_nil in Hb'; contradiction);
      try reflexivity; discriminate Hts.
Defined.

(** Two bundles with the same timestamp come in the order of the hashes
    given: the two orders of the hashes give two different lists. *)
Lemma resolve_same_timestamp_counterexample :
  ["B0"; "C0"] ≡ₚ ["C0"; "B0"] /\
  tail_timestamp (bundle_at "B0") = tail_timestamp (bundle_at "C0") /\
  value (Demo.bundles None ["B0"; "C0"] false)
  = inr [bundle_at "B0"; bundle_at "C0"] /\
  value (Demo.bundles None ["C0"; "B0"] false)
  = inr [bundle_at "C0"; bundle_at "B0"] /\
  value (Demo.bundles None ["B0"; "C0"] false)
  <> value (Demo.bundles None ["C0"; "B0"] false).
Proof.
  split; [apply Permutation_swap|]. split; [reflexivity|].
  split; [vm_compute; reflexivity|]. split; [vm_compute; reflexivity|].
  vm_compute. discriminate.
Qed.

End DemoFacts.

(** * More on the scan *)

Section ScanCalls.

Context {E W : Type}.
Variable DEFAULT_SECURITY_LEVEL : Z.
Variable generate_address : string -> Z -> Z -> string.

Abbreviation Adapter := (@Adapter E W).
Abbreviation anext := (anext DEFAULT_SECURITY_LEVEL generate_address).
Abbreviation consume := (consume DEFAULT_SECURITY_LEVEL generate_address).
Abbreviation scanned := (scanned DEFAULT_SECURITY_LEVEL generate_address).

Implicit Types (adapter : Adapter) (g : generator) (w : W) (a : Address).

(** A generator is read through its default security level only. *)
Lemma anext_level adapter g g' w :
  gen_seed g = gen_seed g' -> gen_start g = gen_start g' ->
  level_or_default DEFAULT_SECURITY_LEVEL (gen_security_level g)
  = level_or_default DEFAULT_SECURITY_LEVEL (gen_security_level g') ->
  gen_taken g = gen_taken g' -> gen_closed g = gen_closed g' ->
  let s := anext adapter g w in
  let s' := anext adapter g' w in
  st_item s = st_item s' /\ st_world s = st_world s' /\ st_calls s = st_calls s' /\
  gen_taken (st_gen s) = gen_taken (st_gen s') /\
  gen_closed (st_gen s) = gen_closed (st_gen s') /\
  gen_seed (st_gen s) = gen_seed (st_gen s') /\
  gen_start (st_gen s) = gen_start (st_gen s') /\
  gen_security_level (st_gen s) = gen_security_level g /\
  gen_security_level (st_gen s') = gen_security_level g'.
Proof.
  destruct g as [seed start level taken closed].
  destruct g' as [seed' start' level' taken' closed'].
  simpl. intros <- <- Hlevel <- <-. unfold anext. simpl. rewrite <- Hlevel.
  destruct closed; [repeat split|].
  destruct (create_iterator _ _ _ _ _) as [e|a]; [repeat split|].
  destruct (value (scan_address adapter a w)) as [e|[y|]]; simpl; repeat split.
Qed.

Lemma consume_level adapter n : forall g g' w,
  gen_seed g = gen_seed g' -> gen_start g = gen_start g' ->
  level_or_default DEFAULT_SECURITY_LEVEL (gen_security_level g)
  = level_or_default DEFAULT_SECURITY_LEVEL (gen_security_level g') ->
  gen_taken g = gen_taken g' -> gen_closed g = gen_closed g' ->
  let s := consume adapter n g w in
  let s' := consume adapter n g' w in
  yielded s = yielded s' /\ ending s = ending s' /\ sc_world s = sc_world s' /\
  sc_calls s = sc_calls s'.
Proof.
  induction n as [|n IH]; intros g g' w Hseed Hstart Hlevel Htaken Hclosed;
    simpl; [repeat split|].
  destruct (anext_level adapter g g' w Hseed Hstart Hlevel Htaken Hclosed)
    as (Hi & Hw & Hc & Ht & Hcl & Hse & Hst & Hl & Hl').
  simpl in Hi, Hw, Hc, Ht, Hcl, Hse, Hst, Hl, Hl'.
  rewrite <- Hi, <- Hw, <- Hc.
  destruct (st_item (anext adapter g w)) as [y| |e]; simpl;
    try (repeat split; fail).
  destruct (IH (st_gen (anext adapter g w)) (st_gen (anext adapter g' w))
              (st_world (anext adapter g w))) as (Hy & He & Hw' & Hc');
    try assumption.
  { now rewrite Hl, Hl'. }
  simpl in Hy, He, Hw', Hc'. rewrite Hy, He, Hw', Hc'. repeat split.
Qed.

(** X1. A scan without a security level is the scan with the default
    security level: the same items, the same ending, the same calls and
    the same world. *)
Theorem scan_default_security_level adapter seed start n w :
  let s := consume adapter n (iter_used_addresses seed start None) w in
  let s' := consume adapter n
              (iter_used_addresses seed start (Some DEFAULT_SECURITY_LEVEL)) w in
  yielded s = yielded s' /\ ending s = ending s' /\ sc_world s = sc_world s' /\
  sc_calls s = sc_calls s'.
Proof. apply consume_level; reflexivity. Qed.

(** *** The calls, read off the log *)

Section LogCalls.

Variable addr : nat -> Address.

Lemma log_find_transactions k ys o (t : list (@event E)) :
  scan_log addr k ys o t ->
  filter (fun req => is_ft req) (ev_request <$> t)
  = (fun j => FindTransactions [addr j]) <$> seq k (looked_at ys o).
Proof.
  induction 1; rewrite ?fmap_cons; cbn [ft_event wasf_event ev_request].
  - reflexivity.
  - rewrite filter_cons_True by exact I.
    rewrite IHscan_log. unfold looked_at. destruct o; reflexivity.
  - rewrite filter_cons_True by exact I.
    rewrite filter_cons_False by (intros []).
    rewrite IHscan_log. unfold looked_at. destruct o; reflexivity.
  - rewrite filter_cons_True by exact I.
    rewrite filter_cons_False by (intros []). reflexivity.
  - rewrite filter_cons_True by exact I. reflexivity.
  - rewrite filter_cons_True by exact I.
    rewrite filter_cons_False by (intros []). reflexivity.
  - rewrite filter_cons_True by exact I.
    rewrite filter_cons_False by (intros []). reflexivity.
Qed.

Lemma log_length k ys o (t : list (@event E)) :
  scan_log addr k ys o t ->
  (length ys <= length t <= 2 * length ys + 2)%nat.
Proof. induction 1; simpl; lia. Qed.

Lemma log_items k ys o (t : list (@event E)) :
  scan_log addr k ys o t ->
  forall a hs, (a, hs) ∈ ys ->
    ft_event a (inr hs) ∈ t /\
    (hs = [] -> exists ss, wasf_event a (inr (true :: ss)) ∈ t).
Proof.
  induction 1; intros a0 hs0 Hin;
    try (apply elem_of_nil in Hin; contradiction).
  - apply elem_of_cons in Hin as [[= -> ->]|Hin].
    + split; [apply list_elem_of_here | discriminate].
    + destruct (IHscan_log _ _ Hin) as [Hft Hsp].
      split; [now apply list_elem_of_further|].
      intros Hnil. destruct (Hsp Hnil) as [ss' Hss].
      exists ss'. now apply list_elem_of_further.
  - apply elem_of_cons in Hin as [[= -> ->]|Hin].
    + split; [apply list_elem_of_here|]. intros _. exists ss.
      apply list_elem_of_further, list_elem_of_here.
    + destruct (IHscan_log _ _ Hin) as [Hft Hsp].
      split; [now do 2 apply list_elem_of_further|].
      intros Hnil. destruct (Hsp Hnil) as [ss' Hss].
      exists ss'. now do 2 apply list_elem_of_further.
Qed.

Lemma log_last_calls k ys o (t : list (@event E)) :
  scan_log addr k ys o t ->
  (o = Exhausted ->
   exists pre ss,
     t = pre ++ [ft_event (addr (k + length ys)) (inr []);
                 wasf_event (addr (k + length ys)) (inr (false :: ss))]) /\
  (o = Failed IndexError ->
   exists pre,
     t = pre ++ [ft_event (addr (k + length ys)) (inr []);
                 wasf_event (addr (k + length ys)) (inr [])]) /\
  o <> Failed ValueError.
Proof.
  induction 1; simpl; rewrite ?Nat.add_0_r.
  - repeat split; discriminate.
  - destruct IHscan_log as (He & Hi & Hv).
    replace (k + S (length ys))%nat with (S k + length ys)%nat by lia.
    split; [|split; [|exact Hv]].
    + intros Ho. destruct (He Ho) as (pre & ss & ->).
      exists (ft_event (addr k) (inr (h :: hs)) :: pre), ss. reflexivity.
    + intros Ho. destruct (Hi Ho) as (pre & ->).
      exists (ft_event (addr k) (inr (h :: hs)) :: pre). reflexivity.
  - destruct IHscan_log as (He & Hi & Hv).
    replace (k + S (length ys))%nat with (S k + length ys)%nat by lia.
    split; [|split; [|exact Hv]].
    + intros Ho. destruct (He Ho) as (pre & ss' & ->).
      exists (ft_event (addr k) (inr []) :: wasf_event (addr k) (inr (true :: ss)) :: pre), ss'.
      reflexivity.
    + intros Ho. destruct (Hi Ho) as (pre & ->).
      exists (ft_event (addr k) (inr []) :: wasf_event (addr k) (inr (true :: ss)) :: pre).
      reflexivity.
  - split; [|split; discriminate]. intros _. exists [], ss. reflexivity.
  - repeat split; discriminate.
  - repeat split; discriminate.
  - split; [discriminate|]. split; [|discriminate]. intros _. exists []. reflexivity.
Qed.

End LogCalls.

(** X2. In a scan from a valid start, [FindTransactions] is called for
    one address at a time, for the addresses of the indices [start],
    [start + 1], ... in this order and each once: one call for each item
    yielded, and one for the address at which the scan ended. *)
Theorem scan_finds_every_address_once adapter seed start level n w :
  0 <= start ->
  let s := consume adapter n (iter_used_addresses seed start level) w in
  filter (fun req => is_ft req) (ev_request <$> sc_calls s)
  = (fun j => FindTransactions [scanned seed start level j])
      <$> seq 0 (looked_at (yielded s) (ending s)).
Proof.
  intros Hs s.
  exact (log_find_transactions _ _ _ _ _
           (scan_has_log DEFAULT_SECURITY_LEVEL generate_address adapter seed
              start level n w Hs)).
Qed.

(** X3. A scan that has yielded [k] items has made at least [k] and at
    most [2 k + 2] calls, and each call is about one address, of an index
    not below [start]. *)
Theorem scan_calls_bounded adapter seed start level n w :
  let s := consume adapter n (iter_used_addresses seed start level) w in
  (length (yielded s) <= length (sc_calls s) <= 2 * length (yielded s) + 2)%nat /\
  Forall (fun ev => exists a, request_addresses (ev_request ev) = [a] /\
                              start <= key_index a) (sc_calls s).
Proof.
  intros s. destruct (Z.lt_ge_cases start 0) as [Hneg|Hs].
  - subst s. rewrite consume_negative by (reflexivity || exact Hneg).
    destruct n; simpl; (split; [lia | constructor]).
  - pose proof (scan_has_log DEFAULT_SECURITY_LEVEL generate_address adapter seed
                  start level n w Hs) as Hlog.
    cbv zeta in Hlog. fold s in Hlog. split.
    + eapply log_length. exact Hlog.
    + eapply Forall_impl; [eapply log_requests; exact Hlog|].
      intros ev (j & _ & Hr). exists (scanned seed start level j).
      split; [exact Hr|]. simpl. lia.
Qed.

(** X4. Every item of a scan is what the node answered: [FindTransactions]
    answered with the hashes of the item for its address, and when these
    are none, [WereAddressesSpentFrom] answered for the address with a
    true first state. *)
Theorem scan_items_are_answers adapter seed start level n w :
  let s := consume adapter n (iter_used_addresses seed start level) w in
  forall a hs,
    (a, hs) ∈ yielded s ->
    ft_event a (inr hs) ∈ sc_calls s /\
    (hs = [] -> exists ss, wasf_event a (inr (true :: ss)) ∈ sc_calls s).
Proof.
  intros s a hs Hin. destruct (Z.lt_ge_cases start 0) as [Hneg|Hs].
  - subst s. rewrite consume_negative in Hin by (reflexivity || exact Hneg).
    destruct n; apply elem_of_nil in Hin; contradiction.
  - eapply log_items; [|exact Hin].
    apply (scan_has_log DEFAULT_SECURITY_LEVEL generate_address adapter seed
             start level n w Hs).
Qed.

(** X5. A scan ends by itself only at an unused address: its last two
    calls are then a [FindTransactions] call answered with no hash and a
    [WereAddressesSpentFrom] call answered with a false first state, both
    for the address that follows the last item. *)
Theorem scan_ends_only_at_unused adapter seed start level n w :
  let s := consume adapter n (iter_used_addresses seed start level) w in
  ending s = Exhausted ->
  0 <= start /\
  exists pre ss,
    sc_calls s
    = pre ++ [ft_event (scanned seed start level (length (yielded s))) (inr []);
              wasf_event (scanned seed start level (length (yielded s)))
                         (inr (false :: ss))].
Proof.
  intros s Hend. destruct (Z.lt_ge_cases start 0) as [Hneg|Hs].
  - subst s. rewrite consume_negative in Hend by (reflexivity || exact Hneg).
    destruct n; discriminate Hend.
  - split; [exact Hs|].
    pose proof (scan_has_log DEFAULT_SECURITY_LEVEL generate_address adapter seed
                  start level n w Hs) as Hlog.
    cbv zeta in Hlog. fold s in Hlog.
    destruct (log_last_calls _ _ _ _ _ Hlog) as (He & _ & _).
    exact (He Hend).
Qed.

(** X6. The scan raises [IndexError] only when [WereAddressesSpentFrom]
    answered with no state at all, for an address for which
    [FindTransactions] had answered with no hash; these are its last two
    calls, and they are about the address that follows the last item. *)
Theorem scan_raises_of_its_own adapter seed start level n w :
  let s := consume adapter n (iter_used_addresses seed start level) w in
  ending s = Failed IndexError ->
  exists pre,
    sc_calls s
    = pre ++ [ft_event (scanned seed start level (length (yielded s))) (inr []);
              wasf_event (scanned seed start level (length (yielded s))) (inr [])].
Proof.
  intros s Hend. destruct (Z.lt_ge_cases start 0) as [Hneg|Hs].
  - subst s. rewrite consume_negative in Hend by (reflexivity || exact Hneg).
    destruct n; discriminate Hend.
  - pose proof (scan_has_log DEFAULT_SECURITY_LEVEL generate_address adapter seed
                  start level n w Hs) as Hlog.
    cbv zeta in Hlog. fold s in Hlog.
    destruct (log_last_calls _ _ _ _ _ Hlog) as (_ & Hi & _).
    exact (Hi Hend).
Qed.

End ScanCalls.

(** * More on the stable sort *)

Section Stable.

Context {A : Type} (key : A -> Z).

Lemma insert_by_stable (k : Z) x l :
  filter (fun y => key y = k) (insert_by key x l)
  = filter (fun y => key y = k) (x :: l).
Proof.
  induction l as [|y l IH]; simpl; [reflexivity|].
  destruct (Z.leb_spec (key x) (key y)) as [Hxy|Hxy]; [reflexivity|].
  rewrite (filter_cons _ y), IH, !(filter_cons _ x), (filter_cons _ y).
  destruct (decide (key y = k)) as [Hy|Hy];
    destruct (decide (key x = k)) as [Hx|Hx]; try reflexivity.
  lia.
Qed.

(** Elements of the same key stay in the order they had. *)
Lemma sorted_by_stable (k : Z) l :
  filter (fun y => key y = k) (sorted_by key l) = filter (fun y => key y = k) l.
Proof.
  induction l as [|x l IH]; simpl; [reflexivity|].
  rewrite insert_by_stable, !(filter_cons _ x), IH. reflexivity.
Qed.

End Stable.

(** * More on the resolution *)

Section ResolveCalls.

Context {E W : Type}.
Variable from_tryte_string : string -> Transaction.

Abbreviation Adapter := (@Adapter E W).
Abbreviation answers_of := (answers_of from_tryte_string).
Abbreviation calls_of := (@calls_of E from_tryte_string).
Abbreviation bundles_of := (bundles_of from_tryte_string).
Abbreviation tails_of := (tails_of from_tryte_string).
Abbreviation merged_tails := (merged_tails from_tryte_string).
Abbreviation decoded := (decoded from_tryte_string).
Abbreviation decoded_in := (@decoded_in E from_tryte_string).

Implicit Types (adapter : Adapter) (w : W) (set_order : gset string -> list string).
Implicit Types (txn : Transaction) (ts found : list Transaction).
Implicit Types (S : gset string) (bs : list Bundle) (ans : answers).

(** *** The calls of a resolution that returns *)

Lemma calls_of_decoded set_order hashes ans :
  decoded_in (calls_of set_order hashes ans) = decoded ans.
Proof.
  unfold calls_of, decoded_in, decoded.
  destruct (ans_found ans), (ans_states ans); simpl; now rewrite app_nil_r.
Qed.

Lemma calls_of_found set_order hashes ans :
  found_in (calls_of set_order hashes ans) = default [] (ans_found ans).
Proof.
  unfold calls_of, found_in.
  destruct (ans_found ans), (ans_states ans); simpl; now rewrite ?app_nil_r.
Qed.

Lemma calls_of_answered_bundles set_order hashes ans :
  answered_bundles (calls_of set_order hashes ans) = ans_bundles ans.
Proof.
  unfold calls_of, answered_bundles.
  destruct (ans_found ans), (ans_states ans); simpl; now rewrite app_nil_r.
Qed.

Lemma calls_of_fetched set_order hashes ans :
  fetched (calls_of set_order hashes ans) = hash <$> tails_of ans.
Proof.
  unfold calls_of, fetched.
  destruct (ans_found ans), (ans_states ans); simpl; now rewrite app_nil_r.
Qed.

Lemma calls_of_asked_states set_order hashes ans :
  asked_states (calls_of set_order hashes ans)
  = match ans_states ans with
    | Some _ => set_order (merged_tails ans).2
    | None => []
    end.
Proof.
  unfold calls_of, asked_states.
  destruct (ans_found ans), (ans_states ans); simpl; now rewrite ?app_nil_r.
Qed.

Lemma calls_of_asked_bundles set_order hashes ans :
  asked_bundles (calls_of set_order hashes ans)
  = match ans_found ans with
    | Some _ => set_order (sort_into_tails (decoded ans)).2
    | None => []
    end.
Proof.
  unfold calls_of, asked_bundles.
  destruct (ans_found ans), (ans_states ans); simpl; now rewrite ?app_nil_r.
Qed.

(** A resolution that returns, with its answers and its calls. *)
Lemma resolve_returned adapter set_order transaction_hashes inclusion_states w bundles :
  value (get_bundles_from_transaction_hashes from_tryte_string set_order adapter
           transaction_hashes inclusion_states w) = inr bundles ->
  (transaction_hashes = [] /\ bundles = [] /\
   calls (get_bundles_from_transaction_hashes from_tryte_string set_order adapter
            transaction_hashes inclusion_states w) = []) \/
  exists ans w',
    answers_of set_order adapter transaction_hashes inclusion_states w ans w' /\
    bundles = sorted_by tail_timestamp (bundles_of ans) /\
    calls (get_bundles_from_transaction_hashes from_tryte_string set_order adapter
             transaction_hashes inclusion_states w)
    = calls_of set_order transaction_hashes ans.
Proof.
  intros Hv. destruct transaction_hashes as [|h hs].
  - left. injection Hv as <-. repeat split.
  - right.
    destruct (resolve_returns from_tryte_string adapter set_order h hs
                inclusion_states w bundles Hv) as (ans & w' & Hans & ->).
    exists ans, w'. split; [exact Hans|]. split; [reflexivity|].
    now rewrite (resolve_answers from_tryte_string adapter set_order h hs
                   inclusion_states w ans w' Hans).
Qed.

(** *** The bundles are those of the node *)

Lemma copy_is_confirmed_content bs : forall ts,
  content <$> copy_is_confirmed bs ts = content <$> bs.
Proof.
  induction bs as [|b bs IH]; intros [|t ts]; simpl; try reflexivity.
  now rewrite IH.
Qed.

Lemma copy_is_confirmed_filter (t : Z) bs : forall ts,
  content <$> filter (fun b => tail_timestamp b = t) (copy_is_confirmed bs ts)
  = content <$> filter (fun b => tail_timestamp b = t) bs.
Proof.
  induction bs as [|b bs IH]; intros [|txn ts]; simpl; try reflexivity.
  rewrite !filter_cons.
  change (tail_timestamp (set_bundle_is_confirmed (is_confirmed txn) b))
    with (tail_timestamp b).
  destruct (decide (tail_timestamp b = t)); simpl; now rewrite IH.
Qed.

Lemma bundles_of_content ans :
  content <$> bundles_of ans = content <$> ans_bundles ans.
Proof.
  unfold bundles_of. destruct (ans_states ans);
    [apply copy_is_confirmed_content | reflexivity].
Qed.

(** X8. The bundles returned are the bundles [GetBundles] answered with,
    up to their order and their flags: none is made up, none is left out,
    however many the node gave. *)
Theorem resolve_returns_the_bundles_answered
    adapter set_order transaction_hashes inclusion_states w bundles :
  let r := get_bundles_from_transaction_hashes from_tryte_string set_order
             adapter transaction_hashes inclusion_states w in
  value r = inr bundles ->
  content <$> bundles ≡ₚ content <$> answered_bundles (calls r).
Proof.
  intros r Hv.
  destruct (resolve_returned adapter set_order transaction_hashes
              inclusion_states w bundles Hv)
    as [(_ & -> & Hc)|(ans & w' & _ & -> & Hc)]; fold r in Hc; rewrite Hc.
  - reflexivity.
  - rewrite calls_of_answered_bundles, sorted_by_Permutation, bundles_of_content.
    reflexivity.
Qed.

(** X9. Bundles whose tail transactions have the same timestamp are
    returned in the order in which [GetBundles] gave them. *)
Theorem resolve_keeps_order_of_equal_timestamps
    adapter set_order transaction_hashes inclusion_states w bundles (t : Z) :
  let r := get_bundles_from_transaction_hashes from_tryte_string set_order
             adapter transaction_hashes inclusion_states w in
  value r = inr bundles ->
  content <$> filter (fun b => tail_timestamp b = t) bundles
  = content <$> filter (fun b => tail_timestamp b = t) (answered_bundles (calls r)).
Proof.
  intros r Hv.
  destruct (resolve_returned adapter set_order transaction_hashes
              inclusion_states w bundles Hv)
    as [(_ & -> & Hc)|(ans & w' & _ & -> & Hc)]; fold r in Hc; rewrite Hc.
  - reflexivity.
  - rewrite calls_of_answered_bundles, sorted_by_stable.
    unfold bundles_of. destruct (ans_states ans);
      [apply copy_is_confirmed_filter | reflexivity].
Qed.

(** *** What is asked of the node *)

Lemma elem_of_non_tails b ts :
  b ∈ (sort_into_tails ts).2 <->
  exists txn, txn ∈ ts /\ is_tail txn = false /\ bundle_hash txn = b.
Proof.
  rewrite (sort_into_tails_spec from_tryte_string). simpl. rewrite elem_of_list_to_set, list_elem_of_fmap.
  split.
  - intros (txn & -> & Hin). apply list_elem_of_filter in Hin as [Ht Hin].
    exists txn. split; [exact Hin|]. split; [|reflexivity].
    now apply Is_true_false_1.
  - intros (txn & Hin & Ht & <-). exists txn. split; [reflexivity|].
    apply list_elem_of_filter. split; [|exact Hin]. now apply Is_true_false_2.
Qed.

(** The tail hashes: the hashes of the tail transactions decoded and of
    the tail transactions found. *)
Lemma elem_of_merged_tails ans h :
  h ∈ (merged_tails ans).2 <->
  exists txn, txn ∈ decoded ans ++ default [] (ans_found ans) /\
              is_tail txn = true /\ hash txn = h.
Proof.
  unfold merged_tails. destruct (ans_found ans) as [found|]; simpl.
  - rewrite (add_found_tails_spec from_tryte_string). simpl.
    rewrite elem_of_union, elem_of_list_to_set, (elem_of_tails from_tryte_string). split.
    + intros [(txn & Hin & Ht & Hh)|Hin].
      * exists txn. rewrite elem_of_app. auto.
      * apply list_elem_of_fmap in Hin as (txn & -> & Hin).
        apply elem_of_new_tails in Hin as (Hin & Ht & _).
        exists txn. rewrite elem_of_app. auto.
    + intros (txn & Hin & Ht & <-). apply elem_of_app in Hin as [Hin|Hin].
      * left. exists txn. auto.
      * destruct (decide (hash txn ∈ (sort_into_tails (decoded ans)).1))
          as [Hs|Hs].
        -- left. now apply (elem_of_tails from_tryte_string).
        -- right. now apply new_tails_complete.
  - rewrite app_nil_r. apply (elem_of_tails from_tryte_string).
Qed.

(** Every tail hash is the hash of a transaction kept. *)
Lemma merged_tails_selected ans h :
  h ∈ (merged_tails ans).2 <->
  h ∈ hash <$> select_tails (merged_tails ans).1 (merged_tails ans).2.
Proof.
  split.
  - intros Hin. apply list_elem_of_fmap.
    assert (Hex : exists txn, txn ∈ (merged_tails ans).1 /\ hash txn = h).
    { revert Hin. unfold merged_tails.
      destruct (ans_found ans) as [found|]; simpl.
      - rewrite (add_found_tails_spec from_tryte_string). simpl.
        rewrite elem_of_union, elem_of_list_to_set, (elem_of_tails from_tryte_string).
        intros [(txn & Hin & _ & Hh)|Hin].
        + exists txn. rewrite elem_of_app. auto.
        + apply list_elem_of_fmap in Hin as (txn & -> & Hin).
          exists txn. rewrite elem_of_app. auto.
      - rewrite (elem_of_tails from_tryte_string). intros (txn & Hin & _ & Hh). eauto. }
    destruct Hex as (txn & Htxn & <-). exists txn. split; [reflexivity|].
    unfold select_tails. apply list_elem_of_filter. auto.
  - intros Hin. apply list_elem_of_fmap in Hin as (txn & -> & Hin).
    unfold select_tails in Hin. now apply list_elem_of_filter in Hin as [Hin _].
Qed.

(** X10. With inclusion states, the hashes whose states are asked of
    [GetLatestInclusion] are the hashes whose bundles are asked of
    [GetBundles], when the resolution returns. *)
Theorem resolve_asks_states_of_fetched
    adapter set_order transaction_hashes w bundles :
  let r := get_bundles_from_transaction_hashes from_tryte_string set_order
             adapter transaction_hashes true w in
  (forall S h, h ∈ set_order S <-> h ∈ S) ->
  value r = inr bundles ->
  forall h, h ∈ asked_states (calls r) <-> h ∈ fetched (calls r).
Proof.
  intros r Hord Hv h.
  destruct (resolve_returned adapter set_order transaction_hashes
              true w bundles Hv)
    as [(_ & _ & Hc)|(ans & w' & Hans & _ & Hc)]; fold r in Hc; rewrite Hc.
  - reflexivity.
  - rewrite calls_of_asked_states, calls_of_fetched, (tails_of_hash from_tryte_string).
    destruct Hans as (w1 & w2 & w3 & _ & _ & Hst & _).
    destruct (ans_states ans) as [states|]; [|destruct Hst; discriminate].
    rewrite Hord. apply merged_tails_selected.
Qed.

(** X11. [FindTransactionObjects] is asked for the bundles of the
    transactions decoded that are not tail transactions, and for no other
    bundle; it is not called when all the transactions decoded are tail
    transactions. *)
Theorem resolve_finds_bundles_of_non_tails
    adapter set_order transaction_hashes inclusion_states w bundles :
  let r := get_bundles_from_transaction_hashes from_tryte_string set_order
             adapter transaction_hashes inclusion_states w in
  (forall S h, h ∈ set_order S <-> h ∈ S) ->
  value r = inr bundles ->
  (forall b, b ∈ asked_bundles (calls r) <->
             exists txn, txn ∈ decoded_in (calls r) /\
                         is_tail txn = false /\ bundle_hash txn = b) /\
  (Forall (fun txn => is_tail txn = true) (decoded_in (calls r)) ->
   Forall (fun ev => is_fto (ev_request ev) = false) (calls r)).
Proof.
  intros r Hord Hv.
  destruct (resolve_returned adapter set_order transaction_hashes
              inclusion_states w bundles Hv)
    as [(_ & _ & Hc)|(ans & w' & Hans & _ & Hc)]; fold r in Hc; rewrite Hc.
  - split; [|constructor]. intros b. split.
    + intros Hin. apply elem_of_nil in Hin. contradiction.
    + intros (txn & Hin & _). apply elem_of_nil in Hin. contradiction.
  - rewrite calls_of_asked_bundles, calls_of_decoded.
    destruct Hans as (w1 & w2 & w3 & _ & Hfound & _ & _).
    split.
    + intros b. rewrite <- elem_of_non_tails.
      destruct (ans_found ans) as [found|].
      * apply Hord.
      * destruct Hfound as [-> _]. split; intros Hin.
        -- apply elem_of_nil in Hin. contradiction.
        -- apply not_elem_of_empty in Hin. contradiction.
    + intros Hall. unfold calls_of.
      destruct (ans_found ans) as [found|].
      * destruct Hfound as [Hne _]. exfalso. apply Hne.
        apply set_eq. intros b. rewrite elem_of_non_tails. split.
        -- intros (txn & Hin & Ht & _). rewrite Forall_forall in Hall.
           rewrite (Hall _ Hin) in Ht. discriminate Ht.
        -- intros Hin. apply not_elem_of_empty in Hin. contradiction.
      * destruct (ans_states ans); repeat constructor.
Qed.

(** X12. The bundles asked of [GetBundles] are those of the tail
    transactions: a hash is asked exactly when it is the hash of a tail
    transaction among the transactions decoded or among the transactions
    found for the bundles of the others. *)
Theorem resolve_fetches_the_tails
    adapter set_order transaction_hashes inclusion_states w bundles :
  let r := get_bundles_from_transaction_hashes from_tryte_string set_order
             adapter transaction_hashes inclusion_states w in
  value r = inr bundles ->
  forall h,
    h ∈ fetched (calls r) <->
    exists txn, txn ∈ decoded_in (calls r) ++ found_in (calls r) /\
                is_tail txn = true /\ hash txn = h.
Proof.
  intros r Hv h.
  destruct (resolve_returned adapter set_order transaction_hashes
              inclusion_states w bundles Hv)
    as [(_ & _ & Hc)|(ans & w' & Hans & _ & Hc)]; fold r in Hc; rewrite Hc.
  - split.
    + intros Hin. apply elem_of_nil in Hin. contradiction.
    + intros (txn & Hin & _). apply elem_of_nil in Hin. contradiction.
  - rewrite calls_of_fetched, calls_of_decoded, calls_of_found,
      (tails_of_hash from_tryte_string), <- merged_tails_selected.
    apply elem_of_merged_tails.
Qed.

Lemma all_tails_no_bundle ts :
  Forall (fun txn => is_tail txn = true) ts -> (sort_into_tails ts).2 = ∅.
Proof.
  intros Hall. apply set_eq. intros b. rewrite elem_of_non_tails. split.
  - intros (txn & Hin & Ht & _). rewrite Forall_forall in Hall.
    rewrite (Hall _ Hin) in Ht. discriminate Ht.
  - intros Hin. apply not_elem_of_empty in Hin. contradiction.
Qed.

Lemma all_tails_selected ts :
  Forall (fun txn => is_tail txn = true) ts ->
  select_tails ts (sort_into_tails ts).1 = ts.
Proof.
  intros Hall. unfold select_tails.
  assert (Hin : Forall (fun txn => hash txn ∈ (sort_into_tails ts).1) ts).
  { rewrite Forall_forall in *. intros txn Htxn.
    apply (elem_of_tails from_tryte_string). exists txn. auto. }
  revert Hin. generalize (sort_into_tails ts).1. clear Hall.
  induction ts as [|txn ts IH]; intros S Hin; [reflexivity|].
  apply Forall_cons in Hin as [Hh Hin].
  rewrite filter_cons_True by exact Hh. f_equal. now apply IH.
Qed.

(** X13. When the transactions decoded are those of the hashes given and
    are all tail transactions, the bundles are asked of [GetBundles] for
    the hashes given, in the order given, and [FindTransactionObjects] is
    not called. *)
Theorem resolve_tails_in_the_order_given
    adapter set_order transaction_hashes inclusion_states w bundles :
  let r := get_bundles_from_transaction_hashes from_tryte_string set_order
             adapter transaction_hashes inclusion_states w in
  value r = inr bundles ->
  Forall (fun txn => is_tail txn = true) (decoded_in (calls r)) ->
  hash <$> decoded_in (calls r) = transaction_hashes ->
  fetched (calls r) = transaction_hashes /\
  Forall (fun ev => is_fto (ev_request ev) = false) (calls r).
Proof.
  intros r Hv.
  destruct (resolve_returned adapter set_order transaction_hashes
              inclusion_states w bundles Hv)
    as [(-> & _ & Hc)|(ans & w' & Hans & _ & Hc)]; fold r in Hc; rewrite Hc.
  - intros _ _. split; [reflexivity | constructor].
  - rewrite calls_of_fetched, calls_of_decoded, (tails_of_hash from_tryte_string).
    intros Hall Hhash.
    destruct Hans as (w1 & w2 & w3 & _ & Hfound & _ & _).
    pose proof (all_tails_no_bundle _ Hall) as Hnone.
    unfold merged_tails, calls_of.
    destruct (ans_found ans) as [found|].
    { destruct Hfound as [Hne _]. contradiction. }
    simpl. rewrite (all_tails_selected _ Hall). split; [exact Hhash|].
    destruct (ans_states ans); repeat constructor.
Qed.

Ltac in_order :=
  repeat first [apply sublist_nil | apply sublist_skip | apply sublist_cons].

(** X14. A resolution calls [GetTrytes], [FindTransactionObjects],
    [GetLatestInclusion] and [GetBundles] in this order, each once at
    most, and no other command, whether it returns or fails. *)
Theorem resolve_calls_in_order
    adapter set_order transaction_hashes inclusion_states w :
  (fun ev => command_rank (ev_request ev))
    <$> calls (get_bundles_from_transaction_hashes from_tryte_string set_order
                 adapter transaction_hashes inclusion_states w)
  `sublist_of` [0; 1; 2; 3]%nat.
Proof.
  unfold get_bundles_from_transaction_hashes, bind, await.
  destruct transaction_hashes as [|h hs]; simpl.
  { in_order. }
  destruct (GetTrytesCommand adapter (h :: hs) w) as [[e|trytes] w1]; simpl.
  { in_order. }
  destruct (decide _) as [Hempty|Hne]; simpl.
  - destruct inclusion_states; simpl.
    + destruct (GetLatestInclusionCommand _ _ _) as [[e|states] w3]; simpl.
      { in_order. }
      destruct (GetBundlesCommand _ _ _) as [[e|bs] w4]; simpl;
        in_order.
    + destruct (GetBundlesCommand _ _ _) as [[e|bs] w4]; simpl;
        in_order.
  - destruct (FindTransactionObjectsCommand _ _ _) as [[e|found] w2]; simpl.
    { in_order. }
    destruct inclusion_states; simpl.
    + destruct (GetLatestInclusionCommand _ _ _) as [[e|states] w3]; simpl.
      { in_order. }
      destruct (GetBundlesCommand _ _ _) as [[e|bs] w4]; simpl;
        in_order.
    + destruct (GetBundlesCommand _ _ _) as [[e|bs] w4]; simpl;
        in_order.
Qed.

(** C5 (amended). Let the transaction hashes given be all different, and
    let the node answer [GetTrytes] with the transactions of the hashes
    requested, [GetBundles] with the bundles of the tail transactions
    requested, and be consistent on which transactions are tail
    transactions.  Then the bundles returned are those of the tail
    transactions decoded or found for the bundles of the others, each
    exactly once: no two bundles returned have the same tail transaction,
    and a bundle is returned for a tail hash exactly when a tail
    transaction with this hash was decoded from the [GetTrytes] answer or
    found by [FindTransactionObjects].  So hashes of transactions of the
    same bundle, tail or not, give this bundle once; and the bundle of
    every tail transaction given is returned. *)
Theorem resolve_one_bundle_per_tail
    adapter set_order tail_of transaction_hashes inclusion_states w bundles :
  let r := get_bundles_from_transaction_hashes from_tryte_string set_order
             adapter transaction_hashes inclusion_states w in
  NoDup transaction_hashes ->
  trytes_parallel from_tryte_string adapter ->
  tails_consistent from_tryte_string adapter tail_of ->
  bundles_parallel adapter ->
  value r = inr bundles ->
  NoDup (tail_hash <$> bundles) /\
  (forall h,
      h ∈ tail_hash <$> bundles <->
      exists txn, txn ∈ decoded_in (calls r) ++ found_in (calls r) /\
                  is_tail txn = true /\ hash txn = h) /\
  (forall h, h ∈ transaction_hashes -> tail_of h = true ->
             h ∈ tail_hash <$> bundles).
Proof.
  intros r Hnd Htr [Hc1 Hc2] Hpar Hv.
  destruct (resolve_returned adapter set_order transaction_hashes
              inclusion_states w bundles Hv)
    as [(-> & -> & Hc)|(ans & w' & Hans & -> & Hc)]; fold r in Hc; rewrite Hc.
  { split; [constructor|]. split.
    - intros h. split.
      + intros Hin. apply elem_of_nil in Hin. contradiction.
      + intros (txn & Hin & _). apply elem_of_nil in Hin. contradiction.
    - intros h Hin. apply elem_of_nil in Hin. contradiction. }
  rewrite calls_of_decoded, calls_of_found.
  destruct Hans as (w1 & w2 & w3 & Hgt & Hfound & Hst & Hgb).
  assert (Hhashes : tail_hash <$> sorted_by tail_timestamp (bundles_of ans)
                    ≡ₚ hash <$> select_tails (merged_tails ans).1 (merged_tails ans).2).
  { rewrite sorted_by_Permutation, (bundles_of_tail_hash from_tryte_string),
      (Hpar _ _ _ _ Hgb).
    now rewrite (tails_of_hash from_tryte_string). }
  assert (Hdec : hash <$> decoded ans = transaction_hashes)
    by exact (Htr _ _ _ _ Hgt).
  split; [|split].
  - rewrite Hhashes. unfold select_tails. apply NoDup_fmap_filter.
    apply (merged_tails_NoDup from_tryte_string tail_of).
    + now rewrite Hdec.
    + exact (Hc1 _ _ _ _ Hgt).
    + intros found Heq. rewrite Heq in Hfound. destruct Hfound as [_ Hfo].
      exact (Hc2 _ _ _ _ Hfo).
  - intros h. rewrite Hhashes, <- merged_tails_selected.
    apply elem_of_merged_tails.
  - intros h0 Hin Htail. rewrite Hhashes, <- merged_tails_selected.
    apply elem_of_merged_tails.
    rewrite <- Hdec in Hin. apply list_elem_of_fmap in Hin as (t0 & -> & Hin).
    exists t0. split; [apply elem_of_app; now left|]. split; [|reflexivity].
    pose proof (Hc1 _ _ _ _ Hgt) as Hcons. rewrite Forall_forall in Hcons.
    rewrite (Hcons _ Hin). exact Htail.
Qed.

End ResolveCalls.

(** * More of the small Tangle *)

Section DemoCalls.

Import Demo.

Abbreviation scan5 :=
  (consume DEFAULT_SECURITY_LEVEL generate_address (node None) 5
           (iter_used_addresses "SEED" 0 None) 0%nat).
Abbreviation silent5 :=
  (consume DEFAULT_SECURITY_LEVEL generate_address stateless_node 5
           (iter_used_addresses "SEED" 0 None) 0%nat).
Abbreviation resolved hashes inclusion_states :=
  (get_bundles_from_transaction_hashes from_tryte_string elements (node None)
     hashes inclusion_states 0%nat).

Lemma scan_finds_every_address_once_witness :
  0 <= 0 /\
  filter (fun req => is_ft req) (ev_request <$> sc_calls scan5)
  = [FindTransactions [address_of 0]; FindTransactions [address_of 1];
     FindTransactions [address_of 2]].
Proof.
  split; [lia|].
  assert (Hl : (fun j => FindTransactions
                   [scanned DEFAULT_SECURITY_LEVEL generate_address "SEED" 0 None j])
                 <$> seq 0 (looked_at (yielded scan5)
                                      (ending scan5))
               = [FindTransactions [address_of 0]; FindTransactions [address_of 1];
                  FindTransactions [address_of 2]])
    by (vm_compute; reflexivity).
  rewrite <- Hl.
  apply (scan_finds_every_address_once DEFAULT_SECURITY_LEVEL generate_address
           (node None) "SEED" 0 None 5 0%nat).
  lia.
Defined.

Lemma scan_items_are_answers_witness :
  (address_of 1, []) ∈ yielded scan5 /\
  ft_event (address_of 1) (inr []) ∈ sc_calls scan5 /\
  exists ss,
    wasf_event (address_of 1) (inr (true :: ss)) ∈ sc_calls scan5.
Proof.
  assert (Hin : (address_of 1, []) ∈ yielded scan5).
  { vm_compute. apply list_elem_of_further, list_elem_of_here. }
  split; [exact Hin|].
  pose proof (scan_items_are_answers DEFAULT_SECURITY_LEVEL generate_address
                (node None) "SEED" 0 None 5 0%nat (address_of 1) [] Hin)
    as [Hft Hsp].
  split; [exact Hft | exact (Hsp eq_refl)].
Defined.

Lemma scan_ends_only_at_unused_witness :
  ending scan5 = Exhausted /\
  exists pre ss,
    sc_calls scan5
    = pre ++ [ft_event (address_of 2) (inr []);
              wasf_event (address_of 2) (inr (false :: ss))].
Proof.
  assert (Hend : ending scan5 = Exhausted)
    by (vm_compute; reflexivity).
  split; [exact Hend|].
  assert (Ha : scanned DEFAULT_SECURITY_LEVEL generate_address "SEED" 0 None
                 (length (yielded scan5)) = address_of 2)
    by (vm_compute; reflexivity).
  pose proof (scan_ends_only_at_unused DEFAULT_SECURITY_LEVEL generate_address
                (node None) "SEED" 0 None 5 0%nat Hend) as (_ & pre & ss & Hcalls).
  rewrite Ha in Hcalls. exists pre, ss. exact Hcalls.
Defined.

(** The scan of a node that gives no state raises [IndexError] at its
    first address. *)
Lemma scan_raises_of_its_own_witness :
  ending silent5 = Failed IndexError /\
  exists pre,
    sc_calls silent5
    = pre ++ [ft_event (address_of 0) (inr []); wasf_event (address_of 0) (inr [])].
Proof.
  assert (Hend : ending silent5
                 = Failed IndexError) by (vm_compute; reflexivity).
  split; [exact Hend|].
  assert (Ha : scanned DEFAULT_SECURITY_LEVEL generate_address "SEED" 0 None
                 (length (yielded silent5))
               = address_of 0)
    by (vm_compute; reflexivity).
  pose proof (scan_raises_of_its_own DEFAULT_SECURITY_LEVEL generate_address
                stateless_node "SEED" 0 None 5 0%nat Hend) as (pre & Hcalls).
  rewrite Ha in Hcalls. exists pre. exact Hcalls.
Defined.

Lemma demo_bundles_with_states :
  value (resolved ["A0"; "B1"] true)
  = inr [confirmed false "B0"; confirmed true "A0"].
Proof. vm_compute. reflexivity. Qed.

Lemma demo_bundles_same_timestamp :
  value (resolved ["B0"; "C0"] false)
  = inr [bundle_at "B0"; bundle_at "C0"].
Proof. vm_compute. reflexivity. Qed.

Lemma demo_bundles_of_tails :
  value (resolved ["A0"; "B0"] false)
  = inr [bundle_at "B0"; bundle_at "A0"].
Proof. vm_compute. reflexivity. Qed.

Lemma resolve_returns_the_bundles_answered_witness :
  content <$> [confirmed false "B0"; confirmed true "A0"]
  ≡ₚ content <$> answered_bundles (calls (resolved ["A0"; "B1"] true)).
Proof.
  pose proof demo_bundles_with_states as Hv.
  exact (resolve_returns_the_bundles_answered from_tryte_string (node None)
           elements ["A0"; "B1"] true 0%nat _ Hv).
Defined.

Lemma resolve_keeps_order_of_equal_timestamps_witness :
  tail_timestamp (bundle_at "B0") = 10 /\ tail_timestamp (bundle_at "C0") = 10 /\
  content <$> filter (fun b => tail_timestamp b = 10) [bundle_at "B0"; bundle_at "C0"]
  = content <$> filter (fun b => tail_timestamp b = 10)
                  (answered_bundles (calls (resolved ["B0"; "C0"] false))).
Proof.
  split; [reflexivity|]. split; [reflexivity|].
  pose proof demo_bundles_same_timestamp as Hv.
  exact (resolve_keeps_order_of_equal_timestamps from_tryte_string (node None)
           elements ["B0"; "C0"] false 0%nat _ 10 Hv).
Defined.

Lemma resolve_asks_states_of_fetched_witness :
  "B0" ∈ fetched (calls (resolved ["A0"; "B1"] true)) /\
  "B0" ∈ asked_states (calls (resolved ["A0"; "B1"] true)).
Proof.
  assert (Hf : "B0" ∈ fetched (calls (resolved ["A0"; "B1"] true))).
  { vm_compute. apply list_elem_of_further, list_elem_of_here. }
  split; [exact Hf|].
  pose proof demo_bundles_with_states as Hv.
  apply (resolve_asks_states_of_fetched from_tryte_string (node None) elements
           ["A0"; "B1"] 0%nat _ (fun S h => elem_of_elements S h) Hv "B0").
  exact Hf.
Defined.

Lemma resolve_finds_bundles_of_non_tails_witness :
  txn "B1" "B" false 10 ∈ decoded_in from_tryte_string
                            (calls (resolved ["A0"; "B1"] true)) /\
  "B" ∈ asked_bundles (calls (resolved ["A0"; "B1"] true)).
Proof.
  assert (Hd : txn "B1" "B" false 10
               ∈ decoded_in from_tryte_string
                   (calls (resolved ["A0"; "B1"] true))).
  { vm_compute. apply list_elem_of_further, list_elem_of_here. }
  split; [exact Hd|].
  pose proof demo_bundles_with_states as Hv.
  apply (proj1 (resolve_finds_bundles_of_non_tails from_tryte_string (node None)
                  elements ["A0"; "B1"] true 0%nat _
                  (fun S h => elem_of_elements S h) Hv) "B").
  exists (txn "B1" "B" false 10). split; [exact Hd|]. split; reflexivity.
Defined.

Lemma resolve_fetches_the_tails_witness :
  txn "B0" "B" true 10 ∈ found_in (calls (resolved ["A0"; "B1"] true)) /\
  "B0" ∈ fetched (calls (resolved ["A0"; "B1"] true)).
Proof.
  assert (Hd : txn "B0" "B" true 10
               ∈ found_in (calls (resolved ["A0"; "B1"] true))).
  { vm_compute. apply list_elem_of_here. }
  split; [exact Hd|].
  pose proof demo_bundles_with_states as Hv.
  apply (resolve_fetches_the_tails from_tryte_string (node None) elements
           ["A0"; "B1"] true 0%nat _ Hv "B0").
  exists (txn "B0" "B" true 10). split; [|split; reflexivity].
  apply elem_of_app. right. exact Hd.
Defined.

Lemma resolve_tails_in_the_order_given_witness :
  hash <$> decoded_in from_tryte_string (calls (resolved ["A0"; "B0"] false))
  = ["A0"; "B0"] /\
  fetched (calls (resolved ["A0"; "B0"] false)) = ["A0"; "B0"].
Proof.
  assert (Hh : hash <$> decoded_in from_tryte_string
                          (calls (resolved ["A0"; "B0"] false))
               = ["A0"; "B0"]) by (vm_compute; reflexivity).
  split; [exact Hh|].
  assert (Hall : Forall (fun txn => is_tail txn = true)
                   (decoded_in from_tryte_string
                      (calls (resolved ["A0"; "B0"] false)))).
  { vm_compute. repeat constructor. }
  pose proof demo_bundles_of_tails as Hv.
  exact (proj1 (resolve_tails_in_the_order_given from_tryte_string (node None)
                  elements ["A0"; "B0"] false 0%nat _ Hv Hall Hh)).
Defined.

(** Non-tail transactions of two bundles and the tail transaction of
    one of them: each bundle is returned, once; the bundle of "B0" is
    there through the tail transaction found for the bundle of "B1". *)
Lemma resolve_one_bundle_per_tail_witness :
  NoDup ["A1"; "B1"; "A0"] /\
  value (resolved ["A1"; "B1"; "A0"] false)
  = inr [bundle_at "B0"; bundle_at "A0"] /\
  NoDup (tail_hash <$> [bundle_at "B0"; bundle_at "A0"]) /\
  "A0" ∈ tail_hash <$> [bundle_at "B0"; bundle_at "A0"] /\
  txn "B0" "B" true 10 ∈ found_in (calls (resolved ["A1"; "B1"; "A0"] false)) /\
  "B0" ∈ tail_hash <$> [bundle_at "B0"; bundle_at "A0"].
Proof.
  assert (Hnd : NoDup ["A1"; "B1"; "A0"]).
  { repeat (apply NoDup_cons; split;
            [intros Hin; repeat (apply elem_of_cons in Hin as [Hin|Hin];
                                 [discriminate Hin|]);
             apply elem_of_nil in Hin; contradiction|]).
    apply NoDup_nil_2. }
  split; [exact Hnd|].
  assert (Hv : value (resolved ["A1"; "B1"; "A0"] false)
               = inr [bundle_at "B0"; bundle_at "A0"])
    by (vm_compute; reflexivity).
  split; [exact Hv|].
  assert (Hfound : txn "B0" "B" true 10
                   ∈ found_in (calls (resolved ["A1"; "B1"; "A0"] false))).
  { vm_compute. do 2 apply list_elem_of_further. apply list_elem_of_here. }
  pose proof (resolve_one_bundle_per_tail from_tryte_string (node None) elements
                tail_of ["A1"; "B1"; "A0"] false 0%nat _ Hnd
                (demo_trytes_parallel None) (demo_tails_consistent None)
                (demo_bundles_parallel None) Hv) as (Hone & Hiff & Hall).
  split; [exact Hone|]. split; [|split; [exact Hfound|]].
  - apply Hall; [do 2 apply list_elem_of_further; apply list_elem_of_here
                | reflexivity].
  - apply Hiff. exists (txn "B0" "B" true 10).
    split; [apply elem_of_app; right; exact Hfound|]. split; reflexivity.
Defined.

End DemoCalls.
